(** * Selective upgrade of a yarn lockfile

    A shallow embedding of the lockfile-update script
    ([upgradeLock], [upgradeSelectedPackages], [extractNameFromDescriptor],
    [loadPackages]) and the properties of its convergence loop.

    The script is written against third-party libraries (the yarn
    descriptor parser, the syml codec, semver, micromatch) and against the
    package manager itself.  They are gathered in the class [Externals];
    everything proved in the sections below holds for every instance of it.
    The module [Demo] gives one small instance, on which the definitions
    can be run; the last section evaluates the script on sample lockfiles. *)

From Stdlib Require Import Ascii String.
From stdpp Require Import base option list gmap strings.

Set Default Proof Using "Type".

(** ** Strings, as the script uses them *)

Module Str.

(** [s.startsWith(p)] *)
Definition startsWith (p s : string) : bool := String.prefix p s.

(** [s.split(c)] for a one-character separator: never empty, the empty
    string gives one empty segment. *)
Fixpoint split_go (c : ascii) (cur : string) (s : string) : list string :=
  match s with
  | EmptyString => [String.rev cur]
  | String a s' =>
      if Ascii.eqb a c then String.rev cur :: split_go c EmptyString s'
      else split_go c (String a cur) s'
  end.
Definition split (c : ascii) (s : string) : list string :=
  split_go c EmptyString s.

(** [s.trim()], on the white space of the ASCII range (tab, line feed,
    vertical tab, form feed, carriage return, space). *)
Fixpoint trimStart (s : string) : string :=
  match s with
  | String a s' => if Ascii.is_space a then trimStart s' else s
  | EmptyString => EmptyString
  end.
Definition trim (s : string) : string :=
  String.rev (trimStart (String.rev (trimStart s))).

(** The double-quote character as a one-character string. *)
Definition dquote : string := String (ascii_of_nat 34) EmptyString.
(** The line feed. *)
Definition nl : string := String (ascii_of_nat 10) EmptyString.

(** [xs.join(sep)] *)
Fixpoint join (sep : string) (xs : list string) : string :=
  match xs with
  | [] => EmptyString
  | [x] => x
  | x :: rest => x +:+ sep +:+ join sep rest
  end.

End Str.

(** ** Data model *)

Inductive LanguageName := node.
Inductive LinkType := hard | soft.

(** Yarn lock entry (the type [YarnEntry] of the script).  As in that
    type, [version] and [resolution] are strings that every entry has: a
    parsed record without one of them, on which the script would read
    [undefined], is not among the values. *)
Record YarnEntry := {
  version : string;
  resolution : string;
  dependencies : option (list (string * string));
  checksum : option string;
  languageName : option LanguageName;
  linkType : option LinkType
}.

(** [Record<string, YarnEntry>]: a JavaScript object.  It is kept as the
    list of its properties in enumeration order.  The first binding of a key
    is the property; [for ... in] visits each key once. *)
Definition Lock := list (string * YarnEntry).

Module Obj.

(** [o[k]] *)
Fixpoint get (o : Lock) (k : string) : option YarnEntry :=
  match o with
  | [] => None
  | (k', e) :: o' => if String.eqb k' k then Some e else get o' k
  end.

(** [o[k] = e]: an existing property keeps its place, a new one goes last. *)
Fixpoint set (o : Lock) (k : string) (e : YarnEntry) : Lock :=
  match o with
  | [] => [(k, e)]
  | (k', e') :: o' =>
      if String.eqb k' k then (k', e) :: o' else (k', e') :: set o' k e
  end.

(** The keys [for (const k in o)] enumerates. *)
Definition keys (o : Lock) : list string := remove_dups (o.*1).

End Obj.

(** A parsed descriptor ([structUtils.parseDescriptor]): the fields the
    script reads. *)
Record Descriptor := {
  scope : option string;
  name : string;
  range : string
}.

(** A parsed range ([structUtils.parseRange]). *)
Record Range := {
  protocol : option string;
  source : option string;
  selector : string;
  params : option string
}.

(** [Map<string, string[]>]: canonical package name to the original keys. *)
Abbreviation Index := (gmap string (list string)).

(** ** Errors and results *)

Inductive Error :=
| FileError (path : string)          (* fs.readFileSync failed *)
| ParseError                         (* parseSyml threw *)
| InvalidDescriptor (s : string)     (* structUtils.parseDescriptor threw *)
| InvalidRange (s : string)          (* structUtils.parseRange threw *)
| MatchError                         (* micromatch.isMatch threw *)
| TypeError                          (* property read on undefined *)
| CommandFailed (cmd : string).      (* the child process exited nonzero *)

Inductive result (A : Type) :=
| Ok (a : A)
| Fail (e : Error).
Arguments Ok {A} a.
Arguments Fail {A} e.

Global Instance result_ret : MRet result := @Ok.
Global Instance result_bind : MBind result := fun A B k r =>
  match r with Ok a => k a | Fail e => Fail e end.

(** The value of a nullable, or the exception [e]. *)
Definition orThrow {A} (e : Error) (o : option A) : result A :=
  match o with Some a => Ok a | None => Fail e end.

(** [xs.every(f)] for a callback that may throw: stops at the first
    [false] and at the first exception. *)
Fixpoint every {A} (f : A → result bool) (xs : list A) : result bool :=
  match xs with
  | [] => Ok true
  | x :: rest => b ← f x; if b : bool then every f rest else Ok false
  end.

(** ** The console *)

(** What the script prints.  [message] gives the text of each line. *)
Inductive Message :=
| Downgrade (name from to : string)   (* console.log  *)
| Ignoring (pkg : string)             (* console.log  *)
| NoPackageFound (pkg : string)       (* console.warn *)
| NewPackage (pkg : string).          (* console.warn *)

Definition message (m : Message) : string :=
  match m with
  | Downgrade n from to => "Downgrade '" +:+ n +:+ "' from " +:+ from +:+ " to " +:+ to
  | Ignoring pkg => "Ignoring package '" +:+ pkg +:+ "'."
  | NoPackageFound pkg => "No package found for '" +:+ pkg +:+ "'."
  | NewPackage pkg => "New package '" +:+ pkg +:+ "' added."
  end.

Definition isWarning (m : Message) : bool :=
  match m with
  | NoPackageFound _ | NewPackage _ => true
  | Downgrade _ _ _ | Ignoring _ => false
  end.

(** The lockfile key a line is about; a downgrade line names the package. *)
Definition lineKey (m : Message) : option string :=
  match m with
  | Ignoring pkg | NoPackageFound pkg | NewPackage pkg => Some pkg
  | Downgrade _ _ _ => None
  end.

Definition isDowngrade (m : Message) : bool :=
  match m with Downgrade _ _ _ => true | _ => false end.

(** What the outside observes of a run, in order. *)
Inductive Event :=
| Ran (cmd : string) (cwd : option string)
| Printed (m : Message)
| Wrote (path text : string).

(** The runs of the install command in mutable mode. *)
Definition isMutableInstall (ev : Event) : bool :=
  match ev with
  | Ran cmd _ => String.eqb cmd "jlpm install"
  | _ => false
  end.

Definition mutableInstalls (t : list Event) : nat :=
  length (List.filter isMutableInstall t).

(** The messages printed, in order. *)
Definition printedIn (t : list Event) : list Message :=
  omap (fun ev => match ev with Printed m => Some m | _ => None end) t.

(** Copied from the yarn sources by the script: two comment lines and an
    empty line. *)
Definition yarnLockHeader : string :=
  Str.join EmptyString
    [ "# This file is generated by running " +:+ Str.dquote +:+ "yarn install"
        +:+ Str.dquote +:+ " inside your project." +:+ Str.nl;
      "# Manual changes might be lost - proceed with caution!" +:+ Str.nl ]
  +:+ Str.nl.

(** ** The libraries and the package manager *)

(** What the script imports.  A [None] from a parser is the exception the
    library throws there; [validRange] is [string | null] as in semver, and
    [satisfies] never throws.  [exec] is a child process of the package
    manager: from the state of whatever it consults ([Env]) and the files,
    either the new state and files, or [None] for a nonzero exit. *)
Class Externals := {
  parseDescriptor : string → option Descriptor;
  parseRange : string → option Range;
  validRange : string → option string;
  satisfies : string → string → bool;
  isMatch : string → string → option bool;
  parseSyml : string → option Lock;
  stringifySyml : Lock → string;
  Env : Type;
  exec : string → option string → Env → gmap string string →
         option (Env * gmap string string)
}.

(** The state a run acts on: the files, the package manager's own state, and
    what has been observed so far (oldest first). *)
Record World `{Externals} := {
  files : gmap string string;
  env : Env;
  trace : list Event
}.

(** Stateful code that may throw.  The state reached when an exception is
    thrown is kept: what was printed and written before stays so. *)
Definition M `{Externals} (A : Type) : Type := World → result A * World.

Global Instance M_ret `{Externals} : MRet M := fun A a w => (Ok a, w).
Global Instance M_bind `{Externals} : MBind M := fun A B k m w =>
  match m w with
  | (Ok a, w') => k a w'
  | (Fail e, w') => (Fail e, w')
  end.

(** JavaScript truthiness of a [string | null]. *)
Definition truthy (o : option string) : bool :=
  match o with
  | Some s => negb (String.eqb s EmptyString)
  | None => false
  end.

(** Options of [upgradeLock]. *)
Record Options := {
  lock : option string;
  cwd : option string
}.

(** The state of one pass of [upgradeSelectedPackages] over the reloaded
    lockfile: the object being edited and the flag. *)
Record DiffState := {
  newPkgs : Lock;
  hasChange : bool
}.

Section Script.
Context `{X : Externals}.

(** *** Effects *)

Definition liftR {A} (r : result A) : M A := fun w => (r, w).

Definition emit (ev : Event) : M unit := fun w =>
  (Ok tt, {| files := files w; env := env w; trace := trace w ++ [ev] |}).

(** [console.log] and [console.warn] *)
Definition print (m : Message) : M unit := emit (Printed m).

(** [fs.readFileSync(path, { encoding: 'utf-8' })] *)
Definition readFileSync (path : string) : M string := fun w =>
  (orThrow (FileError path) (files w !! path), w).

(** [fs.writeFileSync(path, text, { encoding: 'utf-8' })].  The write
    succeeds: a failure of the file system at this point is not among the
    behaviours followed here. *)
Definition writeFileSync (path text : string) : M unit := fun w =>
  (Ok tt, {| files := <[path := text]> (files w); env := env w;
             trace := trace w ++ [Wrote path text] |}).

(** Modelled from the spec: [run] of ./utils is not among the sources.
    It invokes the package manager's install command as a shell command,
    with an optional working directory; the command may rewrite the
    lockfile, and a nonzero exit is fatal to the run. *)
Definition run (cmd : string) (dir : option string) : M unit := fun w =>
  match exec cmd dir (env w) (files w) with
  | Some (e', fs') =>
      (Ok tt, {| files := fs'; env := e'; trace := trace w ++ [Ran cmd dir] |})
  | None =>
      (Fail (CommandFailed cmd),
       {| files := files w; env := env w; trace := trace w ++ [Ran cmd dir] |})
  end.

(** [for (const x of xs) s = body(s, x)], with exceptions. *)
Fixpoint forEach {A S} (body : S → A → M S) (xs : list A) (s : S) : M S :=
  match xs with
  | [] => mret s
  | x :: rest => s' ← body s x; forEach body rest s'
  end.

Fixpoint forEachR {A S} (body : S → A → result S) (xs : list A) (s : S)
  : result S :=
  match xs with
  | [] => Ok s
  | x :: rest => s' ← body s x; forEachR body rest s'
  end.

(** *** The script *)

Definition extractNameFromDescriptor (str : string) : result string :=
  let first := Str.trim (hd EmptyString (Str.split "," str)) in
  descriptor ← orThrow (InvalidDescriptor first) (parseDescriptor first);
  Ok (if truthy (scope descriptor)
      then "@" +:+ default EmptyString (scope descriptor) +:+ "/" +:+ name descriptor
      else name descriptor).

Definition loadPackages (lockFile : string) : M Lock :=
  yarnLock ← readFileSync lockFile;
  liftR (orThrow ParseError (parseSyml yarnLock)).

(** The callback of [pkg.split(',').every(...)], for the candidate
    [origPkg = pkgs[origDescriptor]].  [origPkg.version] is read only when
    the range is a valid one. *)
Definition rangeAdmits (origPkg : option YarnEntry) (desc : string)
  : result bool :=
  let d := Str.trim desc in
  parsedDesc ← orThrow (InvalidDescriptor d) (parseDescriptor d);
  rng ← orThrow (InvalidRange (range parsedDesc))
                (parseRange (range parsedDesc));
  if negb (truthy (validRange (selector rng))) then Ok true
  else o ← orThrow TypeError origPkg;
       Ok (satisfies (version o) (selector rng)).

(** The condition of the [if] in the candidate loop. *)
Definition allDescriptorsAdmit (pkg : string) (origPkg : option YarnEntry)
  : result bool :=
  every (rangeAdmits origPkg) (Str.split "," pkg).

(** The loop over [pkgToDescriptor.get(name)]: returns the state and
    [noMatch]. *)
Fixpoint candidateLoop (pkgs : Lock) (nm pkg : string)
    (cands : list string) (st : DiffState) : M (DiffState * bool) :=
  match cands with
  | [] => mret (st, true)
  | origDescriptor :: rest =>
      let origPkg := Obj.get pkgs origDescriptor in
      ok ← liftR (allDescriptorsAdmit pkg origPkg);
      if ok : bool then
        o ← liftR (orThrow TypeError origPkg);
        cur ← liftR (orThrow TypeError (Obj.get (newPkgs st) pkg));
        if negb (String.eqb (version o) (version cur)) then
          print (Downgrade nm (version cur) (version o));;
          mret ({| newPkgs := Obj.set (newPkgs st) pkg o;
                   hasChange := true |}, false)
        else mret (st, false)
      else candidateLoop pkgs nm pkg rest st
  end.

(** The body of [for (const pkg in newPkgs)]. *)
Definition diffEntry (pkgToDescriptor : Index) (packages : string)
    (pkgs : Lock) (st : DiffState) (pkg : string) : M DiffState :=
  if Str.startsWith "__" pkg then mret st
  else
    cur ← liftR (orThrow TypeError (Obj.get (newPkgs st) pkg));
    nm ← liftR (extractNameFromDescriptor (resolution cur));
    match pkgToDescriptor !! nm with
    | Some cands =>
        inScope ← liftR (orThrow MatchError (isMatch nm packages));
        if negb inScope then
          '(st', noMatch) ← candidateLoop pkgs nm pkg cands st;
          (if noMatch : bool then print (NoPackageFound pkg) else mret tt);;
          mret st'
        else print (Ignoring pkg);; mret st
    | None => print (NewPackage pkg);; mret st
    end.

(** [upgradeSelectedPackages] up to the end of its [for] loop: the
    lockfile is reloaded and every key of it visited. *)
Definition diffPass (lockFile : string) (pkgToDescriptor : Index)
    (packages : string) (pkgs : Lock) : M DiffState :=
  reloaded ← loadPackages lockFile;
  forEach (diffEntry pkgToDescriptor packages pkgs) (Obj.keys reloaded)
          {| newPkgs := reloaded; hasChange := false |}.

Definition upgradeSelectedPackages (lockFile : string)
    (pkgToDescriptor : Index) (packages : string) (pkgs : Lock) : M bool :=
  st ← diffPass lockFile pkgToDescriptor packages pkgs;
  (if hasChange st
   then writeFileSync lockFile (yarnLockHeader +:+ stringifySyml (newPkgs st))
   else mret tt);;
  mret (hasChange st).

(** The body of the first loop of [upgradeLock]. *)
Definition indexEntry (pkgs : Lock) (pkgToDescriptor : Index) (pkg : string)
  : result Index :=
  if Str.startsWith "__" pkg then Ok pkgToDescriptor
  else
    e ← orThrow TypeError (Obj.get pkgs pkg);
    nm ← extractNameFromDescriptor (resolution e);
    Ok (match pkgToDescriptor !! nm with
        | Some ds => <[nm := ds ++ [pkg]]> pkgToDescriptor
        | None => <[nm := [pkg]]> pkgToDescriptor
        end).

Definition buildIndex (pkgs : Lock) : result Index :=
  forEachR (indexEntry pkgs) (Obj.keys pkgs) ∅.

(** [do { run('jlpm install') } while (upgradeSelectedPackages(...) &&
    counter-- > 0)].  The counter is read only after a pass that changed
    something; it lets the loop go on while it is positive. *)
Fixpoint convergenceLoop (counter : nat) (lockFile : string)
    (pkgToDescriptor : Index) (packages : string) (pkgs : Lock)
    (dir : option string) : M unit :=
  run "jlpm install" dir;;
  changed ← upgradeSelectedPackages lockFile pkgToDescriptor packages pkgs;
  if changed : bool then
    match counter with
    | S counter' =>
        convergenceLoop counter' lockFile pkgToDescriptor packages pkgs dir
    | O => mret tt
    end
  else mret tt.

(** [exitOnUncaughtException()] installs the handler that ends the process
    on an exception nobody catches; the script catches none, so an exception
    is the result [Fail] of the run. *)
Definition upgradeLock (packages : string) (options : Options) : M unit :=
  let lockFile := default "yarn.lock" (lock options) in
  pkgs ← loadPackages lockFile;
  pkgToDescriptor ← liftR (buildIndex pkgs);
  convergenceLoop 5 lockFile pkgToDescriptor packages pkgs (cwd options);;
  run "jlpm install --immutable" (cwd options).

End Script.

(** ** A small instance

    Stand-ins for the libraries, each on a fragment of the library's input
    language that is spelled out at its definition, and a scriptable package
    manager.  On its fragment a stand-in answers as the library does; the
    examples stay inside the fragments. *)

Module Demo.

(** *** String helpers *)

(** The text before and after the first [c]. *)
Fixpoint breakAt (c : ascii) (s : string) : option (string * string) :=
  match s with
  | EmptyString => None
  | String a s' =>
      if Ascii.eqb a c then Some (EmptyString, s')
      else '(l, r) ← breakAt c s'; Some (String a l, r)
  end.

Fixpoint allChars (p : ascii → bool) (s : string) : bool :=
  match s with
  | EmptyString => true
  | String a s' => p a && allChars p s'
  end.

Definition nonEmpty (s : string) : bool := negb (String.eqb s EmptyString).

Definition isNot (cs : list ascii) (a : ascii) : bool :=
  forallb (fun c => negb (Ascii.eqb a c)) cs.

Definition stripPrefix (p s : string) : option string :=
  if String.prefix p s
  then Some (String.substring (String.length p) (String.length s - String.length p) s)
  else None.

Definition stripSuffix (p s : string) : option string :=
  String.rev <$> stripPrefix (String.rev p) (String.rev s).

(** A decimal numeral without leading zero. *)
Fixpoint digits (acc : nat) (s : string) : option nat :=
  match s with
  | EmptyString => Some acc
  | String a s' => d ← Ascii.is_nat a; digits (10 * acc + d) s'
  end.
Definition numeral (s : string) : option nat :=
  match s with
  | EmptyString => None
  | String "0" (String _ _) => None
  | _ => digits 0 s
  end.

Fixpoint showDigits (fuel n : nat) (acc : string) : string :=
  match fuel with
  | O => acc
  | S fuel' =>
      let acc' := String (ascii_of_nat (48 + n `mod` 10)) acc in
      if decide (n < 10) then acc' else showDigits fuel' (n `div` 10) acc'
  end.
Definition show (n : nat) : string := showDigits (S n) n EmptyString.

(** *** structUtils *)

(** [structUtils.parseDescriptor(s)] (non-strict): an optional [@scope/],
    a name without [@] and [/], and an optional [@range]; the range
    [unknown] is refused.  Fragment: strings without line terminators. *)
Definition demo_parseDescriptor (s : string) : option Descriptor :=
  '(sc, rest) ←
     match s with
     | String "@" s' =>
         '(sc, rest) ← breakAt "/" s';
         if nonEmpty sc then Some (Some sc, rest) else None
     | _ => Some (None, s)
     end;
  let '(nm, rg) :=
    match breakAt "@" rest with
    | Some (nm, rg) => (nm, Some rg)
    | None => (rest, None)
    end in
  if nonEmpty nm && allChars (isNot ["/"%char]) nm then
    match rg with
    | Some rg =>
        if nonEmpty rg && negb (String.eqb rg "unknown")
        then Some {| scope := sc; name := nm; range := rg |}
        else None
    | None => Some {| scope := sc; name := nm; range := "unknown" |}
    end
  else None.

(** [structUtils.parseRange(s)].  Fragment: strings without [#] and
    without [::], where the range is an optional [protocol:] and the
    selector. *)
Definition demo_parseRange (s : string) : option Range :=
  match breakAt ":" s with
  | Some (p, sel) =>
      Some {| protocol := Some (p +:+ ":"); source := None;
              selector := sel; params := None |}
  | None =>
      Some {| protocol := None; source := None; selector := s; params := None |}
  end.

(** *** semver *)

(** A version [MAJOR.MINOR.PATCH] or [MAJOR.MINOR.PATCH-PRERELEASE]
    (no build metadata). *)
Record SemVer := {
  major : nat; minor : nat; patch : nat;
  prerelease : option string
}.

Definition parseSemVer (s : string) : option SemVer :=
  '(ma, r1) ← breakAt "." s;
  '(mi, r2) ← breakAt "." r1;
  let '(pa, pre) :=
    match breakAt "-" r2 with
    | Some (pa, pre) => (pa, Some pre)
    | None => (r2, None)
    end in
  ma ← numeral ma; mi ← numeral mi; pa ← numeral pa;
  match pre with
  | Some p =>
      if nonEmpty p && allChars (isNot ["+"; " "]%char) p
      then Some {| major := ma; minor := mi; patch := pa; prerelease := Some p |}
      else None
  | None => Some {| major := ma; minor := mi; patch := pa; prerelease := None |}
  end.

(** The ranges of the fragment: the empty range and [*]; one exact
    version; [^MAJOR.MINOR.PATCH]. *)
Inductive SemRange :=
| AnyVersion
| Exactly (v : SemVer)
| Caret (ma mi pa : nat).

Definition parseSemRange (s : string) : option SemRange :=
  if String.eqb s EmptyString || String.eqb s "*" then Some AnyVersion
  else match s with
       | String "^" s' =>
           v ← parseSemVer s';
           match prerelease v with
           | None => Some (Caret (major v) (minor v) (patch v))
           | Some _ => None
           end
       | _ => Exactly <$> parseSemVer s
       end.

Definition triple (ma mi pa : nat) : string :=
  show ma +:+ "." +:+ show mi +:+ "." +:+ show pa.

(** The first version a caret range excludes. *)
Definition caretLimit (ma mi pa : nat) : nat * nat * nat :=
  match ma, mi with
  | S _, _ => (S ma, 0, 0)
  | O, S _ => (0, S mi, 0)
  | O, O => (0, 0, S pa)
  end.

Definition ltTriple (a b : nat * nat * nat) : bool :=
  let '(a1, a2, a3) := a in
  let '(b1, b2, b3) := b in
  bool_decide (a1 < b1 ∨ (a1 = b1 ∧ (a2 < b2 ∨ (a2 = b2 ∧ a3 < b3)))).

(** [semver.validRange(r)]: the normalised range, or [null]. *)
Definition demo_validRange (r : string) : option string :=
  rg ← parseSemRange r;
  Some match rg with
       | AnyVersion => "*"
       | Exactly v =>
           triple (major v) (minor v) (patch v) +:+
           from_option (fun p => "-" +:+ p) EmptyString (prerelease v)
       | Caret ma mi pa =>
           let '(a, b, c) := caretLimit ma mi pa in
           ">=" +:+ triple ma mi pa +:+ " <" +:+ triple a b c +:+ "-0"
       end.

(** [semver.satisfies(v, r)]: [false] for what is not a version or not a
    range; a version with a prerelease tag satisfies only the exact range
    that names it. *)
Definition demo_satisfies (v r : string) : bool :=
  match parseSemVer v, parseSemRange r with
  | Some v, Some AnyVersion => bool_decide (prerelease v = None)
  | Some v, Some (Exactly w) =>
      bool_decide (major v = major w ∧ minor v = minor w ∧ patch v = patch w
                   ∧ prerelease v = prerelease w)
  | Some v, Some (Caret ma mi pa) =>
      bool_decide (prerelease v = None)
      && negb (ltTriple (major v, minor v, patch v) (ma, mi, pa))
      && ltTriple (major v, minor v, patch v) (caretLimit ma mi pa)
  | _, _ => false
  end.

(** *** micromatch *)

(** A pattern of literal characters and [*], which stands for any run of
    characters other than [/].  [fuel] bounds the length of the name. *)
Fixpoint glob (fuel : nat) (pat s : string) : bool :=
  match fuel with
  | O => false
  | S fuel' =>
      match pat, s with
      | EmptyString, EmptyString => true
      | EmptyString, String _ _ => false
      | String "*" pat', EmptyString => glob fuel' pat' s
      | String "*" pat', String a s' =>
          glob fuel' pat' s
          || (negb (Ascii.eqb a "/") && glob fuel' pat s')
      | String _ _, EmptyString => false
      | String c pat', String a s' => Ascii.eqb c a && glob fuel' pat' s'
      end
  end.

(** [micromatch.isMatch(name, pattern)]: an empty pattern is refused.
    Fragment: patterns of letters, digits, [-], [_], [@], [/] and single
    [*]; names not starting with a dot. *)
Definition demo_isMatch (nm pattern : string) : option bool :=
  if nonEmpty pattern
  then Some (glob (S (String.length pattern + String.length nm)) pattern nm)
  else None.

(** *** The lockfile codec *)

Definition entry (v r : string) : YarnEntry :=
  {| version := v; resolution := r; dependencies := None; checksum := None;
     languageName := None; linkType := None |}.

Definition quoted (s : string) : string := Str.dquote +:+ s +:+ Str.dquote.

Definition unquoted (s : string) : string :=
  default s (stripPrefix Str.dquote s ≫= stripSuffix Str.dquote).

(** A stand-in for [stringifySyml]: per property a line with the quoted
    key and one line per field, for the fields [version] and
    [resolution].  The script passes the text on without looking at it. *)
Definition entryText (p : string * YarnEntry) : string :=
  quoted p.1 +:+ ":" +:+ Str.nl +:+
  "  version: " +:+ version p.2 +:+ Str.nl +:+
  "  resolution: " +:+ quoted (resolution p.2) +:+ Str.nl.

Definition demo_stringifySyml (o : Lock) : string :=
  Str.join Str.nl (entryText <$> o).

(** A stand-in for [parseSyml] on the texts above, comment lines and
    empty lines: [None] for any other line.  The entries read so far are
    kept latest first. *)
Definition parseLine (acc : list (string * YarnEntry)) (line : string)
  : option (list (string * YarnEntry)) :=
  if String.eqb line EmptyString || String.prefix "#" line then Some acc
  else match stripPrefix "  version: " line, stripPrefix "  resolution: " line, acc with
       | Some v, _, (k, e) :: acc' => Some ((k, entry v (resolution e)) :: acc')
       | _, Some r, (k, e) :: acc' => Some ((k, entry (version e) (unquoted r)) :: acc')
       | None, None, _ =>
           if String.prefix " " line then None
           else k ← stripSuffix ":" line;
                Some ((unquoted k, entry EmptyString EmptyString) :: acc)
       | _, _, [] => None
       end.

Definition demo_parseSyml (text : string) : option Lock :=
  reverse <$> foldl (fun acc line => acc ← acc; parseLine acc line)
                (Some []) (Str.split (ascii_of_nat 10) text).

(** *** The package manager *)

(** A scripted resolver: the lockfile texts the next mutable installs
    will write, then the text every later one writes; with neither, an
    install leaves the lockfile as it is. *)
Record Resolver := {
  pending : list string;
  settled : option string
}.

(** The lockfile text the resolver wants, given the present one. *)
Definition wanted (r : Resolver) (present : option string) : option string :=
  match pending r with
  | t :: _ => Some t
  | [] => match settled r with Some t => Some t | None => present end
  end.

Definition demo_exec (cmd : string) (dir : option string) (r : Resolver)
    (fs : gmap string string) : option (Resolver * gmap string string) :=
  let next := {| pending := tail (pending r); settled := settled r |} in
  if String.eqb cmd "jlpm install" then
    match wanted r (fs !! "yarn.lock") with
    | Some t => Some (next, <["yarn.lock" := t]> fs)
    | None => Some (next, fs)
    end
  else if String.eqb cmd "jlpm install --immutable" then
    if bool_decide (wanted r (fs !! "yarn.lock") = fs !! "yarn.lock")
    then Some (r, fs) else None
  else None.

#[export] Instance demo : Externals := {|
  parseDescriptor := demo_parseDescriptor;
  parseRange := demo_parseRange;
  validRange := demo_validRange;
  satisfies := demo_satisfies;
  isMatch := demo_isMatch;
  parseSyml := demo_parseSyml;
  stringifySyml := demo_stringifySyml;
  Env := Resolver;
  exec := demo_exec
|}.

(** A world with one lockfile and an empty trace. *)
Definition world (text : string) (r : Resolver) : World :=
  {| files := {["yarn.lock" := text]}; env := r; trace := [] |}.

Definition lockOf (w : World) : option Lock :=
  files w !! "yarn.lock" ≫= demo_parseSyml.


End Demo.

(** ** What one visit decides

    A reading of [diffEntry] as a decision taken from the key and the entry
    found under it, and of the edit and the lines that follow from it.
    [diffEntry_decide] below shows that this is what the loop body does. *)

Inductive Verdict :=
| Skipped                                    (* a metadata key *)
| Added                                      (* the name is not indexed *)
| InScope                                    (* the name matches the pattern *)
| Unmatched (nm : string)                    (* no candidate admits the key *)
| Unchanged (nm origDescriptor : string)     (* the candidate has the version *)
| Reverted (nm origDescriptor : string) (cur o : YarnEntry).

Section Decisions.
Context `{X : Externals}.

(** The first candidate whose entry admits every descriptor of [pkg]. *)
Fixpoint firstAdmitting (pkgs : Lock) (pkg : string) (cands : list string)
  : result (option (string * YarnEntry)) :=
  match cands with
  | [] => Ok None
  | origDescriptor :: rest =>
      ok ← allDescriptorsAdmit pkg (Obj.get pkgs origDescriptor);
      if ok : bool then
        o ← orThrow TypeError (Obj.get pkgs origDescriptor);
        Ok (Some (origDescriptor, o))
      else firstAdmitting pkgs pkg rest
  end.

Definition decide_entry (pkgToDescriptor : Index) (packages : string)
    (pkgs : Lock) (pkg : string) (cur : option YarnEntry) : result Verdict :=
  if Str.startsWith "__" pkg then Ok Skipped
  else
    cur ← orThrow TypeError cur;
    nm ← extractNameFromDescriptor (resolution cur);
    match pkgToDescriptor !! nm with
    | None => Ok Added
    | Some cands =>
        inScope ← orThrow MatchError (isMatch nm packages);
        if inScope : bool then Ok InScope
        else
          found ← firstAdmitting pkgs pkg cands;
          Ok match found with
             | None => Unmatched nm
             | Some (od, o) =>
                 if String.eqb (version o) (version cur)
                 then Unchanged nm od
                 else Reverted nm od cur o
             end
    end.

Definition applyVerdict (pkg : string) (v : Verdict) (st : DiffState)
  : DiffState :=
  match v with
  | Reverted _ _ _ o =>
      {| newPkgs := Obj.set (newPkgs st) pkg o; hasChange := true |}
  | _ => st
  end.

Definition verdictLines (pkg : string) (v : Verdict) : list Message :=
  match v with
  | Skipped | Unchanged _ _ => []
  | Added => [NewPackage pkg]
  | InScope => [Ignoring pkg]
  | Unmatched _ => [NoPackageFound pkg]
  | Reverted nm _ cur o => [Downgrade nm (version cur) (version o)]
  end.

(** The whole loop, as decisions: how it ends, and the lines printed
    until then. *)
Fixpoint decide_all (pkgToDescriptor : Index) (packages : string)
    (pkgs : Lock) (ks : list string) (st : DiffState)
  : result DiffState * list Message :=
  match ks with
  | [] => (Ok st, [])
  | k :: rest =>
      match decide_entry pkgToDescriptor packages pkgs k
                         (Obj.get (newPkgs st) k) with
      | Ok v =>
          let '(r, ms) := decide_all pkgToDescriptor packages pkgs rest
                                     (applyVerdict k v st) in
          (r, verdictLines k v ++ ms)
      | Fail e => (Fail e, [])
      end
  end.

(** [loadPackages], which leaves the world as it is. *)
Definition loaded (lockFile : string) (w : World) : result Lock :=
  text ← orThrow (FileError lockFile) (files w !! lockFile);
  orThrow ParseError (parseSyml text).

(** The world after the lines [ms] have been printed. *)
Definition say (ms : list Message) (w : World) : World :=
  {| files := files w; env := env w; trace := trace w ++ (Printed <$> ms) |}.

(** The world after [text] has been written to [path]. *)
Definition written (path text : string) (w : World) : World :=
  {| files := <[path := text]> (files w); env := env w;
     trace := trace w ++ [Wrote path text] |}.

(** The canonical name of the entry under [k], if it has one. *)
Definition nameOf (pkgs : Lock) (k : string) : option string :=
  e ← Obj.get pkgs k;
  match extractNameFromDescriptor (resolution e) with
  | Ok nm => Some nm
  | Fail _ => None
  end.

(** Whether [k] is a package key of [pkgs] with the canonical name [nm]. *)
Definition named (pkgs : Lock) (nm k : string) : bool :=
  negb (Str.startsWith "__" k) && bool_decide (nameOf pkgs k = Some nm).

(** The package keys of [pkgs] with the canonical name [nm], in
    enumeration order. *)
Definition keysNamed (pkgs : Lock) (nm : string) : list string :=
  List.filter (named pkgs nm) (Obj.keys pkgs).

(** What each verdict says about the key and the entry under it. *)
Definition verdictMeans (idx : Index) (packages : string) (pkgs : Lock)
    (pkg : string) (cur : option YarnEntry) (v : Verdict)
  : Prop :=
  match v with
  | Skipped => Str.startsWith "__" pkg = true
  | Added =>
      Str.startsWith "__" pkg = false ∧
      ∃ c nm, cur = Some c ∧
        extractNameFromDescriptor (resolution c) = Ok nm ∧ idx !! nm = None
  | InScope =>
      Str.startsWith "__" pkg = false ∧
      ∃ c nm, cur = Some c ∧
        extractNameFromDescriptor (resolution c) = Ok nm ∧
        is_Some (idx !! nm) ∧ isMatch nm packages = Some true
  | Unmatched nm =>
      Str.startsWith "__" pkg = false ∧
      ∃ c cands, cur = Some c ∧
        extractNameFromDescriptor (resolution c) = Ok nm ∧
        idx !! nm = Some cands ∧ isMatch nm packages = Some false ∧
        firstAdmitting pkgs pkg cands = Ok None
  | Unchanged nm od =>
      Str.startsWith "__" pkg = false ∧
      ∃ c cands o, cur = Some c ∧
        extractNameFromDescriptor (resolution c) = Ok nm ∧
        idx !! nm = Some cands ∧ isMatch nm packages = Some false ∧
        firstAdmitting pkgs pkg cands = Ok (Some (od, o)) ∧
        version o = version c
  | Reverted nm od c o =>
      Str.startsWith "__" pkg = false ∧
      ∃ cands, cur = Some c ∧
        extractNameFromDescriptor (resolution c) = Ok nm ∧
        idx !! nm = Some cands ∧ isMatch nm packages = Some false ∧
        firstAdmitting pkgs pkg cands = Ok (Some (od, o)) ∧
        version o ≠ version c
  end.

(** The entry under a visited key, from the verdict on it. *)
Definition entryAfter (v : Verdict) (before : option YarnEntry)
  : option YarnEntry :=
  match v with
  | Reverted _ _ _ o => Some o
  | _ => before
  end.


(** The bucket of [nm] once further keys have been pushed. *)
Definition pushed (bucket : option (list string)) (ks : list string)
  : option (list string) :=
  match ks with
  | [] => bucket
  | _ => Some (default [] bucket ++ ks)
  end.

(** [w'] is [w] after further events, among them at most [n] mutable
    installs, and downgrades only of packages out of the pattern. *)
Definition grown (packages : string) (n : nat) (w w' : World) : Prop :=
  ∃ evs,
    trace w' = trace w ++ evs ∧ mutableInstalls evs ≤ n ∧
    ∀ nm from to, Printed (Downgrade nm from to) ∈ evs →
                  isMatch nm packages = Some false.

(** The descriptors of the key [k] and their ranges parse. *)
Definition descriptorsParse (k : string) : bool :=
  forallb (fun d =>
             match parseDescriptor (Str.trim d) with
             | Some pd => bool_decide (is_Some (parseRange (range pd)))
             | None => false
             end)
          (Str.split "," k).

(** Every package key of [F] can be decided: the resolution under it
    gives a name, the matcher answers for that name, and when the name is
    out of the pattern the descriptors of the key parse. *)
Definition readable (packages : string) (F : Lock) : bool :=
  forallb (fun k =>
             Str.startsWith "__" k ||
             match nameOf F k with
             | Some nm =>
                 match isMatch nm packages with
                 | Some true => true
                 | Some false => descriptorsParse k
                 | None => false
                 end
             | None => false
             end)
          (Obj.keys F).

End Decisions.

(** ** Sample lockfiles and resolvers *)

Module Samples.
Import Demo.

Definition options : Options := {| lock := None; cwd := None |}.

(** Two packages, and the same two after the resolver has moved both. *)
Definition original : Lock :=
  [("pkg-a@npm:^1.0.0", entry "1.0.0" "pkg-a@npm:1.0.0");
   ("pkg-b@npm:^2.0.0", entry "2.0.0" "pkg-b@npm:2.0.0")].

Definition bumped : Lock :=
  [("pkg-a@npm:^1.0.0", entry "1.1.0" "pkg-a@npm:1.1.0");
   ("pkg-b@npm:^2.0.0", entry "2.1.0" "pkg-b@npm:2.1.0")].

(** The index [upgradeLock] builds from a lockfile. *)
Definition indexOf (pkgs : Lock) : Index :=
  match buildIndex pkgs with Ok idx => idx | Fail _ => ∅ end.

(** A resolver that moves both packages once and then agrees with the
    lockfile it finds. *)
Definition bumpsOnce : Resolver :=
  {| pending := [demo_stringifySyml bumped]; settled := None |}.

(** A resolver that moves both packages on every install. *)
Definition bumpsAlways : Resolver :=
  {| pending := []; settled := Some (demo_stringifySyml bumped) |}.

(** A resolver that has nothing to change. *)
Definition agrees : Resolver := {| pending := []; settled := None |}.

(** The world after the first install of [bumpsOnce]. *)
Definition afterBump : World := world (demo_stringifySyml bumped) agrees.

(** The lockfile a run on [original] with [bumpsOnce] and the pattern
    [pkg-a] ends with. *)
Definition upgraded : Lock :=
  [("pkg-a@npm:^1.0.0", entry "1.1.0" "pkg-a@npm:1.1.0");
   ("pkg-b@npm:^2.0.0", entry "2.0.0" "pkg-b@npm:2.0.0")].

(** The resolver has brought in a third package. *)
Definition withNew : Lock :=
  bumped ++ [("pkg-c@npm:^3.0.0", entry "3.0.0" "pkg-c@npm:3.0.0")].

(** The resolution of the first entry has no name; the second entry has
    been moved by the resolver. *)
Definition broken : Lock :=
  [("pkg-a@npm:^1.0.0", entry "1.0.0" "@broken");
   ("pkg-b@npm:^2.0.0", entry "2.1.0" "pkg-b@npm:2.1.0")].

(** One package, and what the resolver makes of it when the pattern
    [foo] is upgraded: [foo] moves and brings in [bar] at two versions,
    under two keys. *)
Definition single : Lock :=
  [("foo@npm:^1.0.0", entry "1.0.0" "foo@npm:1.0.0")].

Definition twice : Lock :=
  [("bar@npm:^1.0.0", entry "1.2.0" "bar@npm:1.2.0");
   ("bar@npm:^1.1.0", entry "1.5.0" "bar@npm:1.5.0");
   ("foo@npm:^1.0.0", entry "1.1.0" "foo@npm:1.1.0")].

Definition bringsBar : Resolver :=
  {| pending := [demo_stringifySyml twice]; settled := None |}.

(** An original entry at a prerelease version. *)
Definition beta : YarnEntry := entry "1.0.0-beta.1" "foo@npm:1.0.0-beta.1".

(** A lockfile with the metadata record of yarn. *)
Definition withMetadata : Lock :=
  ("__metadata", entry "8" EmptyString) :: bumped.

(** The world [upgradeSelectedPackages] leaves from [afterBump]. *)
Definition afterRevert : World :=
  written "yarn.lock" (yarnLockHeader +:+ demo_stringifySyml upgraded)
    (say [Ignoring "pkg-a@npm:^1.0.0"; Downgrade "pkg-b" "2.1.0" "2.0.0"]
         afterBump).

(** The same world with the trace forgotten, as a later run finds it. *)
Definition fresh (w : World) : World :=
  {| files := files w; env := env w; trace := [] |}.

End Samples.

(** ** Further notions about traces, errors and strings *)

(** The writes of a file. *)
Definition isWrite (ev : Event) : bool :=
  match ev with
  | Wrote _ _ => true
  | _ => false
  end.

Definition writesIn (t : list Event) : nat := length (List.filter isWrite t).

(** The runs of the install command in immutable mode. *)
Definition isImmutableInstall (ev : Event) : bool :=
  match ev with
  | Ran cmd _ => String.eqb cmd "jlpm install --immutable"
  | _ => false
  end.

(** [s] has no occurrence of the character [c]. *)
Fixpoint lacks (c : ascii) (s : string) : bool :=
  match s with
  | EmptyString => true
  | String a s' => negb (Ascii.eqb a c) && lacks c s'
  end.

Section LoopEvents.
Context `{X : Externals}.

(** The events of the loop of [upgradeLock]: a mutable install, a line, or
    a write of the header and a serialised mapping to the lockfile. *)
Definition loopEvent (lockFile : string) (dir : option string) (ev : Event)
  : Prop :=
  match ev with
  | Ran cmd d => cmd = "jlpm install" ∧ d = dir
  | Printed _ => True
  | Wrote path text =>
      path = lockFile ∧ ∃ final, text = yarnLockHeader +:+ stringifySyml final
  end.

End LoopEvents.

(** ** The check of a key, in the words of the specification

    The specification speaks of a version that satisfies the range of every
    comma-separated descriptor of a key, where a range that is not a valid
    one counts as satisfied.  The notions below say this with the libraries'
    functions alone; the facts after them compare them with the callback
    [rangeAdmits] and the loop [candidateLoop] of the script. *)

Section SpecWords.
Context `{X : Externals}.

(** The descriptor [d] parses, and its range is not a valid semver range
    or is satisfied by the version [v]. *)
Definition descriptorAdmitted (v d : string) : Prop :=
  ∃ pd rng,
    parseDescriptor (Str.trim d) = Some pd ∧
    parseRange (range pd) = Some rng ∧
    (truthy (validRange (selector rng)) = false ∨
     satisfies v (selector rng) = true).

(** The descriptor [d] parses, and its range is a valid semver range that
    the version [v] does not satisfy. *)
Definition descriptorRefused (v d : string) : Prop :=
  ∃ pd rng,
    parseDescriptor (Str.trim d) = Some pd ∧
    parseRange (range pd) = Some rng ∧
    truthy (validRange (selector rng)) = true ∧
    satisfies v (selector rng) = false.

(** The descriptor [d], or its range, cannot be decomposed. *)
Definition descriptorUnparsable (d : string) : Prop :=
  parseDescriptor (Str.trim d) = None ∨
  ∃ pd, parseDescriptor (Str.trim d) = Some pd ∧ parseRange (range pd) = None.

(** The version [v] satisfies the range of every descriptor of the key. *)
Definition admits (v k : string) : Prop :=
  Forall (descriptorAdmitted v) (Str.split "," k).

(** Reading the descriptors of the key in order, the first one that [v]
    does not pass is one whose valid range [v] does not satisfy. *)
Definition refuses (v k : string) : Prop :=
  ∃ ds1 d ds2,
    Str.split "," k = ds1 ++ d :: ds2 ∧
    Forall (descriptorAdmitted v) ds1 ∧ descriptorRefused v d.

(** Reading the descriptors of the key in order, the first one that [v]
    does not pass is one that cannot be decomposed. *)
Definition breaksOn (v k : string) : Prop :=
  ∃ ds1 d ds2,
    Str.split "," k = ds1 ++ d :: ds2 ∧
    Forall (descriptorAdmitted v) ds1 ∧ descriptorUnparsable d.

(** The original key [c] has an entry, whose version refuses the key. *)
Definition candidateRefuses (pkgs : Lock) (k c : string) : Prop :=
  ∃ oc, Obj.get pkgs c = Some oc ∧ refuses (version oc) k.

(** [admits], as a function, for keys whose descriptors parse. *)
Definition admitsb (v k : string) : bool :=
  forallb (fun d =>
             match parseDescriptor (Str.trim d) with
             | Some pd =>
                 match parseRange (range pd) with
                 | Some rng =>
                     negb (truthy (validRange (selector rng)))
                     || satisfies v (selector rng)
                 | None => false
                 end
             | None => false
             end)
          (Str.split "," k).

(** The first key of [cands] whose entry in [F] admits the key [k]. *)
Fixpoint firstAdmittedBy (F : Lock) (k : string) (cands : list string)
  : option (string * YarnEntry) :=
  match cands with
  | [] => None
  | od :: rest =>
      match Obj.get F od with
      | Some o =>
          if admitsb (version o) k then Some (od, o)
          else firstAdmittedBy F k rest
      | None => firstAdmittedBy F k rest
      end
  end.

(** For every package entry of [F] out of the pattern, the first entry of
    its name in [F] that admits its key, if there is one, has the version
    of the entry itself. *)
Definition ownVersionFirst (packages : string) (F : Lock) : bool :=
  forallb (fun k =>
             Str.startsWith "__" k ||
             match Obj.get F k, nameOf F k with
             | Some c, Some nm =>
                 match isMatch nm packages with
                 | Some false =>
                     match firstAdmittedBy F k (keysNamed F nm) with
                     | Some (_, o) => String.eqb (version o) (version c)
                     | None => true
                     end
                 | _ => true
                 end
             | _, _ => true
             end)
          (Obj.keys F).

(** The loop of [upgradeLock], started in [w0] with the counter at
    [counter], comes to a pass over the lockfile in the world [w]: the
    install of an iteration leaves [w], the passes of the iterations before
    having returned true with the counter still positive. *)
Fixpoint reachesPass (counter : nat) (lockFile : string)
    (pkgToDescriptor : Index) (packages : string) (pkgs : Lock)
    (dir : option string) (w0 w : World) : Prop :=
  match run "jlpm install" dir w0 with
  | (Ok _, w1) =>
      w1 = w ∨
      match upgradeSelectedPackages lockFile pkgToDescriptor packages pkgs w1,
            counter with
      | (Ok true, w2), S counter' =>
          reachesPass counter' lockFile pkgToDescriptor packages pkgs dir w2 w
      | _, _ => False
      end
  | (Fail _, _) => False
  end.

(** What one iteration of the loop of [upgradeLock] shows: the mutable
    install, the lines of the pass, and the write if the pass made one. *)
Definition iterationEvents (lockFile : string) (dir : option string)
    (it : list Message * option Lock) : list Event :=
  Ran "jlpm install" dir :: (Printed <$> it.1) ++
  match it.2 with
  | Some final => [Wrote lockFile (yarnLockHeader +:+ stringifySyml final)]
  | None => []
  end.

(** Every iteration but the last ends with a write. *)
Definition writesBetween (its : list (list Message * option Lock)) : Prop :=
  ∀ pre it post, its = pre ++ it :: post → post ≠ [] → is_Some it.2.

End SpecWords.

Module Samples2.
Import Demo.

(** The second descriptor of the key of the second entry does not parse. *)
Definition badKey : Lock :=
  [("pkg-a@npm:^1.0.0", entry "1.1.0" "pkg-a@npm:1.1.0");
   ("pkg-b@npm:^2.0.0, @bad", entry "2.1.0" "pkg-b@npm:2.1.0")].

(** The original lockfile for [badKey]. *)
Definition goodKey : Lock :=
  [("pkg-a@npm:^1.0.0", entry "1.0.0" "pkg-a@npm:1.0.0");
   ("pkg-b@npm:^2.0.0, @bad", entry "2.0.0" "pkg-b@npm:2.0.0")].

(** One package at two major versions, and a package in the pattern. *)
Definition majors : Lock :=
  [("bar@npm:^1.0.0", entry "1.2.0" "bar@npm:1.2.0");
   ("bar@npm:^2.0.0", entry "2.3.0" "bar@npm:2.3.0");
   ("foo@npm:^1.0.0", entry "1.1.0" "foo@npm:1.1.0")].

End Samples2.

(** ** Facts about objects *)

Section ObjFacts.
Implicit Types (o : Lock) (k : string) (e : YarnEntry).

Lemma get_set_eq o k e : Obj.get (Obj.set o k e) k = Some e.
Proof.
  induction o as [|[k' e'] o IH]; simpl.
  - by rewrite String.eqb_refl.
  - destruct (String.eqb_spec k' k) as [->|Hne]; simpl.
    + by rewrite String.eqb_refl.
    + by destruct (String.eqb_spec k' k).
Qed.

Lemma get_set_ne o k k' e : k ≠ k' → Obj.get (Obj.set o k e) k' = Obj.get o k'.
Proof.
  intros Hne. induction o as [|[k0 e0] o IH]; simpl.
  - by destruct (String.eqb_spec k k').
  - destruct (String.eqb_spec k0 k) as [->|?]; simpl.
    + by destruct (String.eqb_spec k k').
    + by rewrite IH.
Qed.

Lemma set_fst o k e : is_Some (Obj.get o k) → (Obj.set o k e).*1 = o.*1.
Proof.
  induction o as [|[k0 e0] o IH]; simpl; intros [x Hx]; [done|].
  destruct (String.eqb_spec k0 k) as [->|?]; simpl; [done|].
  f_equal. apply IH. by exists x.
Qed.

Lemma get_is_Some o k : is_Some (Obj.get o k) ↔ k ∈ o.*1.
Proof.
  induction o as [|[k0 e0] o IH]; simpl.
  - split; [by intros [? ?] | by intros ?%elem_of_nil].
  - destruct (String.eqb_spec k0 k) as [->|Hne].
    + split; [intros _; left | by eexists].
    + rewrite IH, elem_of_cons. split; [by right | by intros [->|?]].
Qed.

Lemma elem_of_keys o k : k ∈ Obj.keys o ↔ is_Some (Obj.get o k).
Proof. unfold Obj.keys. by rewrite elem_of_remove_dups, get_is_Some. Qed.

Lemma NoDup_keys o : NoDup (Obj.keys o).
Proof. apply NoDup_remove_dups. Qed.

Lemma keys_fst o o' : o.*1 = o'.*1 → Obj.keys o = Obj.keys o'.
Proof. unfold Obj.keys. by intros ->. Qed.

End ObjFacts.

(** ** Running the monad *)

Section Running.
Context `{X : Externals}.

Lemma run_bind {A B} (m : M A) (k : A → M B) w :
  (m ≫= k) w =
  match m w with
  | (Ok a, w') => k a w'
  | (Fail e, w') => (Fail e, w')
  end.
Proof. reflexivity. Qed.

Lemma run_liftR_bind {A B} (r : result A) (k : A → M B) w :
  (liftR r ≫= k) w = match r with Ok a => k a w | Fail e => (Fail e, w) end.
Proof. rewrite run_bind. by destruct r. Qed.

Lemma say_nil w : say [] w = w.
Proof. destruct w. unfold say. simpl. by rewrite app_nil_r. Qed.

Lemma say_say ms1 ms2 w : say ms2 (say ms1 w) = say (ms1 ++ ms2) w.
Proof. unfold say. simpl. by rewrite fmap_app, app_assoc. Qed.

Lemma say_inj ms1 ms2 w : say ms1 w = say ms2 w → ms1 = ms2.
Proof.
  unfold say. intros [= H%app_inv_head]. revert ms2 H.
  induction ms1 as [|m ms1 IH]; intros [|m' ms2]; simpl; try done.
  intros [= -> ?]. f_equal. by apply IH.
Qed.

Lemma loadPackages_loaded lockFile w :
  loadPackages lockFile w = (loaded lockFile w, w).
Proof.
  unfold loadPackages, loaded. rewrite run_bind. unfold readFileSync.
  by destruct (files w !! lockFile).
Qed.

(** *** The loop body is its decision *)

Lemma candidateLoop_decide pkgs nm pkg cands st w :
  candidateLoop pkgs nm pkg cands st w =
  match firstAdmitting pkgs pkg cands with
  | Fail e => (Fail e, w)
  | Ok None => (Ok (st, true), w)
  | Ok (Some (od, o)) =>
      match Obj.get (newPkgs st) pkg with
      | None => (Fail TypeError, w)
      | Some cur =>
          if String.eqb (version o) (version cur) then (Ok (st, false), w)
          else (Ok ({| newPkgs := Obj.set (newPkgs st) pkg o;
                       hasChange := true |}, false),
                say [Downgrade nm (version cur) (version o)] w)
      end
  end.
Proof.
  induction cands as [|od rest IH]; simpl; [done|].
  rewrite run_liftR_bind.
  destruct (allDescriptorsAdmit pkg (Obj.get pkgs od)) as [[|]|e]; simpl;
    [|exact IH|done].
  rewrite run_liftR_bind.
  destruct (Obj.get pkgs od) as [o|]; simpl; [|done].
  rewrite run_liftR_bind.
  destruct (Obj.get (newPkgs st) pkg) as [cur|]; simpl; [|done].
  by destruct (String.eqb (version o) (version cur)).
Qed.

Lemma diffEntry_decide idx packages pkgs st pkg w :
  diffEntry idx packages pkgs st pkg w =
  match decide_entry idx packages pkgs pkg (Obj.get (newPkgs st) pkg) with
  | Ok v => (Ok (applyVerdict pkg v st), say (verdictLines pkg v) w)
  | Fail e => (Fail e, w)
  end.
Proof.
  unfold diffEntry, decide_entry.
  destruct (Str.startsWith "__" pkg); simpl; [by rewrite say_nil|].
  rewrite run_liftR_bind.
  destruct (Obj.get (newPkgs st) pkg) as [cur|] eqn:Hcur; simpl; [|done].
  rewrite run_liftR_bind.
  destruct (extractNameFromDescriptor (resolution cur)) as [nm|]; simpl; [|done].
  destruct (idx !! nm) as [cands|]; [|done].
  rewrite run_liftR_bind.
  destruct (isMatch nm packages) as [[|]|]; simpl; [done| |done].
  rewrite run_bind, candidateLoop_decide, Hcur.
  destruct (firstAdmitting pkgs pkg cands) as [[[od o]|]|]; simpl; [| done..].
  destruct (String.eqb (version o) (version cur)); simpl; [|done].
  by rewrite say_nil.
Qed.

Lemma forEach_decide idx packages pkgs ks st w :
  forEach (diffEntry idx packages pkgs) ks st w =
  let '(r, ms) := decide_all idx packages pkgs ks st in (r, say ms w).
Proof.
  revert st w. induction ks as [|k rest IH]; intros st w; simpl.
  { by rewrite say_nil. }
  rewrite run_bind, diffEntry_decide.
  destruct (decide_entry idx packages pkgs k (Obj.get (newPkgs st) k)) as [v|e];
    [|by rewrite say_nil].
  rewrite IH.
  destruct (decide_all idx packages pkgs rest (applyVerdict k v st)) as [r ms].
  by rewrite say_say.
Qed.

End Running.

(** ** Facts about the decisions *)

Section DecisionFacts.
Context `{X : Externals}.
Variables (idx : Index) (packages : string) (pkgs : Lock).

(** What the candidate search returns. *)
Lemma firstAdmitting_Some pkg cands od o :
  firstAdmitting pkgs pkg cands = Ok (Some (od, o)) →
  ∃ pre post,
    cands = pre ++ od :: post ∧
    Forall (fun c => allDescriptorsAdmit pkg (Obj.get pkgs c) = Ok false) pre ∧
    allDescriptorsAdmit pkg (Obj.get pkgs od) = Ok true ∧
    Obj.get pkgs od = Some o.
Proof.
  induction cands as [|c rest IH]; simpl; [done|].
  destruct (allDescriptorsAdmit pkg (Obj.get pkgs c)) as [[|]|e] eqn:Hc;
    simpl; [| |done].
  - destruct (Obj.get pkgs c) as [o'|] eqn:Ho; simpl; [|done].
    intros [= <- <-]. exists [], rest.
    split_and!; [done|by constructor|by rewrite Ho|done].
  - intros (pre & post & -> & Hpre & Hod & Ho)%IH.
    exists (c :: pre), post. split_and!; [done| |done..].
    by constructor.
Qed.

Lemma firstAdmitting_None pkg cands :
  firstAdmitting pkgs pkg cands = Ok None →
  Forall (fun c => allDescriptorsAdmit pkg (Obj.get pkgs c) = Ok false) cands.
Proof.
  induction cands as [|c rest IH]; simpl; [by constructor|].
  destruct (allDescriptorsAdmit pkg (Obj.get pkgs c)) as [[|]|e] eqn:Hc;
    simpl; [| |done].
  - by destruct (Obj.get pkgs c).
  - intros ?%IH. by constructor.
Qed.

(** A candidate that admits the key is found, or one before it is, as
    long as the search does not throw. *)
Lemma firstAdmitting_complete pkg cands c found :
  firstAdmitting pkgs pkg cands = Ok found →
  c ∈ cands →
  allDescriptorsAdmit pkg (Obj.get pkgs c) = Ok true →
  is_Some found.
Proof.
  intros Hf Hc Hadm. destruct found as [p|]; [by eexists|].
  apply firstAdmitting_None in Hf.
  rewrite Forall_forall in Hf. specialize (Hf c Hc). congruence.
Qed.

Lemma decide_entry_means pkg cur v :
  decide_entry idx packages pkgs pkg cur = Ok v →
  verdictMeans idx packages pkgs pkg cur v.
Proof.
  unfold decide_entry.
  destruct (Str.startsWith "__" pkg) eqn:Hmeta; [by intros [= <-]|].
  destruct cur as [c|]; simpl; [|done].
  destruct (extractNameFromDescriptor (resolution c)) as [nm|] eqn:Hnm;
    simpl; [|done].
  destruct (idx !! nm) as [cands|] eqn:Hidx.
  2: { intros [= <-]. simpl. eauto 10. }
  destruct (isMatch nm packages) as [[|]|] eqn:Hm; simpl; [| |done].
  { intros [= <-]. simpl. split; [done|]. exists c, nm. by rewrite Hidx. }
  destruct (firstAdmitting pkgs pkg cands) as [[[od o]|]|] eqn:Hf; simpl;
    [| |done].
  - destruct (String.eqb_spec (version o) (version c)) as [Heq|Hne];
      intros [= <-]; simpl; eauto 12.
  - intros [= <-]. simpl. eauto 10.
Qed.

(** An edit happens at a key that is there, so the keys stay. *)
Lemma applyVerdict_fst pkg v st :
  decide_entry idx packages pkgs pkg (Obj.get (newPkgs st) pkg) = Ok v →
  (newPkgs (applyVerdict pkg v st)).*1 = (newPkgs st).*1.
Proof.
  intros Hv%decide_entry_means. destruct v; simpl; try done.
  destruct Hv as (_ & cands & Hcur & _). apply set_fst. by rewrite Hcur.
Qed.

Lemma applyVerdict_other pkg v st k :
  k ≠ pkg → Obj.get (newPkgs (applyVerdict pkg v st)) k = Obj.get (newPkgs st) k.
Proof. intros Hne. destruct v; simpl; try done. by apply get_set_ne. Qed.

Lemma applyVerdict_change pkg v st :
  hasChange (applyVerdict pkg v st)
  = hasChange st || existsb isDowngrade (verdictLines pkg v).
Proof. destruct v; simpl; by rewrite ?orb_false_r, ?orb_true_r. Qed.

Lemma applyVerdict_quiet pkg v st :
  existsb isDowngrade (verdictLines pkg v) = false → applyVerdict pkg v st = st.
Proof. by destruct v. Qed.

End DecisionFacts.

(** ** Facts about one pass *)

Section PassFacts.
Context `{X : Externals}.
Variables (idx : Index) (packages : string) (pkgs : Lock).

Local Abbreviation pass := (decide_all idx packages pkgs).
Local Abbreviation verdict := (decide_entry idx packages pkgs).

(** One step of the pass, when it goes through. *)
Lemma pass_cons k rest st st' ms :
  pass (k :: rest) st = (Ok st', ms) →
  ∃ v ms',
    verdict k (Obj.get (newPkgs st) k) = Ok v ∧
    pass rest (applyVerdict k v st) = (Ok st', ms') ∧
    ms = verdictLines k v ++ ms'.
Proof.
  simpl. destruct (verdict k (Obj.get (newPkgs st) k)) as [v|e]; [|done].
  destruct (pass rest (applyVerdict k v st)) as [r ms'] eqn:Hrest.
  intros [= -> <-]. by exists v, ms'.
Qed.

Lemma pass_fst ks st st' ms :
  pass ks st = (Ok st', ms) → (newPkgs st').*1 = (newPkgs st).*1.
Proof.
  revert st ms. induction ks as [|k rest IH]; intros st ms.
  { by intros [= <- <-]. }
  intros (v & ms' & Hv & Hrest & ->)%pass_cons.
  rewrite (IH _ _ Hrest). by eapply applyVerdict_fst.
Qed.

Lemma pass_change ks st st' ms :
  pass ks st = (Ok st', ms) →
  hasChange st' = hasChange st || existsb isDowngrade ms.
Proof.
  revert st ms. induction ks as [|k rest IH]; intros st ms.
  { intros [= <- <-]. simpl. by rewrite orb_false_r. }
  intros (v & ms' & Hv & Hrest & ->)%pass_cons.
  rewrite (IH _ _ Hrest), applyVerdict_change, existsb_app.
  by rewrite orb_assoc.
Qed.

Lemma pass_quiet ks st st' ms :
  pass ks st = (Ok st', ms) → existsb isDowngrade ms = false → st' = st.
Proof.
  revert st ms. induction ks as [|k rest IH]; intros st ms.
  { by intros [= <- <-]. }
  intros (v & ms' & Hv & Hrest & ->)%pass_cons.
  rewrite existsb_app. intros [Hq1 Hq2]%orb_false_elim.
  rewrite (IH _ _ Hrest Hq2). by apply applyVerdict_quiet.
Qed.

(** Every line printed comes from the verdict on some key. *)
Lemma pass_lines ks st r ms m :
  pass ks st = (r, ms) → m ∈ ms →
  ∃ k cur v, k ∈ ks ∧ verdict k cur = Ok v ∧ m ∈ verdictLines k v.
Proof.
  revert st ms. induction ks as [|k rest IH]; intros st ms; simpl.
  { by intros [= <- <-] ?%elem_of_nil. }
  destruct (verdict k (Obj.get (newPkgs st) k)) as [v|e] eqn:Hv.
  2: { by intros [= <- <-] ?%elem_of_nil. }
  destruct (pass rest (applyVerdict k v st)) as [r' ms'] eqn:Hrest.
  intros [= <- <-] [Hm|Hm]%elem_of_app.
  - exists k, (Obj.get (newPkgs st) k), v. split; [left|done].
  - destruct (IH _ _ Hrest Hm) as (k' & cur & v' & ? & ? & ?).
    exists k', cur, v'. split; [by right|done].
Qed.

(** The entry under a key after the pass: the one before it, or the
    original entry of a revert at that key. *)
Lemma pass_get ks st st' ms k :
  pass ks st = (Ok st', ms) →
  Obj.get (newPkgs st') k = Obj.get (newPkgs st) k ∨
  ∃ cur nm od c o,
    k ∈ ks ∧ verdict k cur = Ok (Reverted nm od c o) ∧
    Obj.get (newPkgs st') k = Some o ∧
    Downgrade nm (version c) (version o) ∈ ms.
Proof.
  revert st ms. induction ks as [|k0 rest IH]; intros st ms.
  { intros [= <- <-]. by left. }
  intros (v & ms' & Hv & Hrest & ->)%pass_cons.
  destruct (IH _ _ Hrest) as [Hsame|(cur & nm & od & c & o & ? & ? & ? & ?)].
  - destruct (decide (k = k0)) as [->|Hne].
    + destruct v; simpl in Hsame; try (by left).
      right. exists (Obj.get (newPkgs st) k0), nm, origDescriptor, cur, o.
      rewrite get_set_eq in Hsame.
      split_and!; [left|done|done|]. apply elem_of_app. left. simpl. left.
    + left. by rewrite Hsame, applyVerdict_other.
  - right. exists cur, nm, od, c, o.
    split_and!; [by right|done|done|]. apply elem_of_app. by right.
Qed.

Lemma pass_other ks st st' ms k :
  pass ks st = (Ok st', ms) → k ∉ ks →
  Obj.get (newPkgs st') k = Obj.get (newPkgs st) k.
Proof.
  intros Hp Hk. by destruct (pass_get _ _ _ _ k Hp) as [?|(?&?&?&?&?&?&?)].
Qed.

Lemma pass_meta ks st st' ms k :
  pass ks st = (Ok st', ms) → Str.startsWith "__" k = true →
  Obj.get (newPkgs st') k = Obj.get (newPkgs st) k.
Proof.
  intros Hp Hk.
  destruct (pass_get _ _ _ _ k Hp) as [?|(?&?&?&?&?&_&Hv&_)]; [done|].
  apply decide_entry_means in Hv as [Hv _]. congruence.
Qed.

Lemma applyVerdict_at k v st :
  Obj.get (newPkgs (applyVerdict k v st)) k
  = entryAfter v (Obj.get (newPkgs st) k).
Proof. destruct v; simpl; try done. apply get_set_eq. Qed.

Lemma pass_at ks st st' ms k :
  NoDup ks → k ∈ ks → pass ks st = (Ok st', ms) →
  ∃ v,
    verdict k (Obj.get (newPkgs st) k) = Ok v ∧
    Obj.get (newPkgs st') k = entryAfter v (Obj.get (newPkgs st) k) ∧
    (∀ m, m ∈ verdictLines k v → m ∈ ms).
Proof.
  revert st ms. induction ks as [|k0 rest IH]; intros st ms Hnd Hk.
  { by apply elem_of_nil in Hk. }
  apply NoDup_cons in Hnd as [Hk0 Hnd].
  intros (v & ms' & Hv & Hrest & ->)%pass_cons.
  destruct (decide (k = k0)) as [->|Hne].
  - exists v. split_and!; [done| |].
    + by rewrite (pass_other _ _ _ _ _ Hrest Hk0), applyVerdict_at.
    + intros m Hm. apply elem_of_app. by left.
  - apply elem_of_cons in Hk as [?|Hk]; [done|].
    destruct (IH _ _ Hnd Hk Hrest) as (v' & Hv' & Hget & Hms).
    rewrite applyVerdict_other in Hv', Hget by done.
    exists v'. split_and!; [done..|].
    intros m Hm. apply elem_of_app. right. by apply Hms.
Qed.

(** The pass goes through when the verdict on every key does. *)
Lemma pass_total ks st :
  (∀ k cur, k ∈ ks → is_Some cur → ∃ v, verdict k cur = Ok v) →
  (∀ k, k ∈ ks → is_Some (Obj.get (newPkgs st) k)) →
  ∃ st' ms, pass ks st = (Ok st', ms).
Proof.
  revert st. induction ks as [|k rest IH]; intros st Hv Hin; simpl.
  { by eexists _, _. }
  destruct (Hv k (Obj.get (newPkgs st) k)) as [v Hk]; [left|apply Hin; left|].
  rewrite Hk.
  destruct (IH (applyVerdict k v st)) as (st' & ms & Hrest).
  - intros k' cur ? ?. apply Hv; [by right|done].
  - intros k' ?. apply get_is_Some.
    rewrite (applyVerdict_fst _ _ _ _ _ _ Hk). apply get_is_Some, Hin. by right.
  - rewrite Hrest. by eexists _, _.
Qed.

End PassFacts.

(** ** Facts about the index *)

Section IndexFacts.
Context `{X : Externals}.
Variable pkgs : Lock.

Lemma indexEntry_lookup idx0 idx k nm :
  indexEntry pkgs idx0 k = Ok idx →
  idx !! nm = pushed (idx0 !! nm) (if named pkgs nm k then [k] else []).
Proof.
  unfold indexEntry, named, nameOf.
  destruct (Str.startsWith "__" k); simpl; [by intros [= <-]|].
  destruct (Obj.get pkgs k) as [e|]; simpl; [|done].
  destruct (extractNameFromDescriptor (resolution e)) as [nm'|]; simpl; [|done].
  intros [= <-]. case_bool_decide as Hnm.
  - injection Hnm as ->. simpl.
    destruct (idx0 !! nm); simpl; by rewrite lookup_insert_eq.
  - assert (nm' ≠ nm) by congruence. simpl.
    destruct (idx0 !! nm'); by rewrite lookup_insert_ne.
Qed.

Lemma pushed_pushed bucket ks1 ks2 :
  pushed (pushed bucket ks1) ks2 = pushed bucket (ks1 ++ ks2).
Proof.
  destruct ks1 as [|k1 ks1]; [done|]. destruct ks2 as [|k2 ks2]; simpl.
  - by rewrite app_nil_r.
  - by rewrite <- app_assoc.
Qed.

Lemma forEachR_index ks idx0 idx nm :
  forEachR (indexEntry pkgs) ks idx0 = Ok idx →
  idx !! nm = pushed (idx0 !! nm) (List.filter (named pkgs nm) ks).
Proof.
  revert idx0. induction ks as [|k rest IH]; intros idx0; simpl.
  { by intros [= <-]. }
  destruct (indexEntry pkgs idx0 k) as [idx1|] eqn:Hk; simpl; [|done].
  intros Hrest%IH. rewrite Hrest, (indexEntry_lookup _ _ _ nm Hk).
  rewrite pushed_pushed. by destruct (named pkgs nm k).
Qed.

(** The bucket of a name is the list of the package keys with that name,
    in the order of the original lockfile. *)
Lemma buildIndex_lookup idx nm cands :
  buildIndex pkgs = Ok idx → idx !! nm = Some cands →
  cands = keysNamed pkgs nm.
Proof.
  unfold buildIndex, keysNamed. intros Hidx%(forEachR_index _ _ _ nm).
  rewrite Hidx, lookup_empty.
  destruct (List.filter (named pkgs nm) (Obj.keys pkgs)); simpl; congruence.
Qed.

Lemma keysNamed_elem nm k :
  k ∈ keysNamed pkgs nm →
  Str.startsWith "__" k = false ∧
  ∃ o, Obj.get pkgs k = Some o ∧
       extractNameFromDescriptor (resolution o) = Ok nm.
Proof.
  unfold keysNamed. rewrite list_elem_of_In, filter_In.
  unfold named, nameOf. intros [_ [Hmeta Hnm]%andb_prop].
  apply negb_true_iff in Hmeta. apply bool_decide_eq_true in Hnm.
  split; [done|].
  destruct (Obj.get pkgs k) as [o|]; simpl in Hnm; [|done].
  exists o. split; [done|].
  destruct (extractNameFromDescriptor (resolution o)); congruence.
Qed.

(** A key of the original lockfile whose entry has the name [nm] is in
    the bucket of [nm]. *)
Lemma buildIndex_complete idx nm k o :
  buildIndex pkgs = Ok idx →
  Obj.get pkgs k = Some o → Str.startsWith "__" k = false →
  extractNameFromDescriptor (resolution o) = Ok nm →
  ∃ cands, idx !! nm = Some cands ∧ k ∈ cands.
Proof.
  intros Hidx Hk Hmeta Hnm.
  pose proof (forEachR_index _ _ _ nm Hidx) as Hl. rewrite lookup_empty in Hl.
  assert (k ∈ List.filter (named pkgs nm) (Obj.keys pkgs)) as Hin.
  { rewrite list_elem_of_In, filter_In, <- list_elem_of_In, elem_of_keys.
    split; [by rewrite Hk|]. unfold named, nameOf. rewrite Hmeta, Hk. simpl.
    rewrite Hnm. by apply bool_decide_eq_true. }
  destruct (List.filter (named pkgs nm) (Obj.keys pkgs)) as [|k0 l] eqn:Hf.
  { by apply elem_of_nil in Hin. }
  exists (k0 :: l). by rewrite Hl.
Qed.

End IndexFacts.

(** ** Facts about the pass as a whole *)

Section RunFacts.
Context `{X : Externals}.
Variables (idx : Index) (packages : string) (pkgs : Lock).

Lemma diffPass_run lockFile w :
  diffPass lockFile idx packages pkgs w =
  match loaded lockFile w with
  | Ok reloaded =>
      let '(r, ms) :=
        decide_all idx packages pkgs (Obj.keys reloaded)
                   {| newPkgs := reloaded; hasChange := false |} in
      (r, say ms w)
  | Fail e => (Fail e, w)
  end.
Proof.
  unfold diffPass. rewrite run_bind, loadPackages_loaded.
  destruct (loaded lockFile w); [|done]. apply forEach_decide.
Qed.

Lemma upgradeSelectedPackages_run lockFile w :
  upgradeSelectedPackages lockFile idx packages pkgs w =
  match diffPass lockFile idx packages pkgs w with
  | (Ok st, w') =>
      if hasChange st
      then (Ok true,
            written lockFile (yarnLockHeader +:+ stringifySyml (newPkgs st)) w')
      else (Ok false, w')
  | (Fail e, w') => (Fail e, w')
  end.
Proof.
  unfold upgradeSelectedPackages. rewrite run_bind.
  destruct (diffPass lockFile idx packages pkgs w) as [[st|e] w']; [|done].
  rewrite run_bind. by destruct (hasChange st).
Qed.

End RunFacts.

(** ** The script's check and the words of the specification *)

Section SpecWordsFacts.
Context `{X : Externals}.

Lemma every_true {A} (f : A → result bool) xs :
  every f xs = Ok true ↔ Forall (fun x => f x = Ok true) xs.
Proof.
  induction xs as [|x rest IH]; simpl; [by split; [constructor|]|].
  rewrite Forall_cons, <- IH.
  destruct (f x) as [[|]|e]; simpl; split; try done; by intros [? ?].
Qed.

Lemma every_false {A} (f : A → result bool) xs :
  every f xs = Ok false ↔
  ∃ l1 x l2, xs = l1 ++ x :: l2 ∧
             Forall (fun y => f y = Ok true) l1 ∧ f x = Ok false.
Proof.
  induction xs as [|x rest IH]; simpl.
  { split; [done|]. by intros ([|??] & ? & ? & ? & _). }
  split.
  - destruct (f x) as [[|]|e] eqn:Hx; simpl; [| |done].
    + intros (l1 & y & l2 & -> & Hl1 & Hy)%IH.
      exists (x :: l1), y, l2. split_and!; [done| |done]. by constructor.
    + intros _. exists [], x, rest. split_and!; [done|constructor|done].
  - intros ([|x' l1] & y & l2 & Heq & Hl1 & Hy); simpl in Heq;
      injection Heq as -> ->.
    + by rewrite Hy.
    + apply Forall_cons in Hl1 as [-> Hl1]. simpl. apply IH. by exists l1, y, l2.
Qed.

Lemma every_fail {A} (f : A → result bool) xs e :
  every f xs = Fail e ↔
  ∃ l1 x l2, xs = l1 ++ x :: l2 ∧
             Forall (fun y => f y = Ok true) l1 ∧ f x = Fail e.
Proof.
  induction xs as [|x rest IH]; simpl.
  { split; [done|]. by intros ([|??] & ? & ? & ? & _). }
  split.
  - destruct (f x) as [[|]|e'] eqn:Hx; simpl; [|done|].
    + intros (l1 & y & l2 & -> & Hl1 & Hy)%IH.
      exists (x :: l1), y, l2. split_and!; [done| |done]. by constructor.
    + intros [= <-]. exists [], x, rest. split_and!; [done|constructor|done].
  - intros ([|x' l1] & y & l2 & Heq & Hl1 & Hy); simpl in Heq;
      injection Heq as -> ->.
    + by rewrite Hy.
    + apply Forall_cons in Hl1 as [-> Hl1]. simpl. apply IH. by exists l1, y, l2.
Qed.

(** The callback of the script answers as the specification says. *)
Lemma rangeAdmits_true o d :
  rangeAdmits (Some o) d = Ok true ↔ descriptorAdmitted (version o) d.
Proof.
  unfold rangeAdmits, descriptorAdmitted.
  destruct (parseDescriptor (Str.trim d)) as [pd|] eqn:Hpd; simpl.
  2: { split; [done|]. by intros (? & ? & ? & _). }
  destruct (parseRange (range pd)) as [rng|] eqn:Hrng; simpl.
  2: { split; [done|]. intros (? & ? & [= <-] & ? & _). congruence. }
  destruct (truthy (validRange (selector rng))) eqn:Hv; simpl.
  - split.
    + intros [= Hs]. exists pd, rng. split_and!; [done..|by right].
    + intros (? & ? & [= <-] & Hr & [?|?]); [congruence|].
      rewrite Hrng in Hr. injection Hr as <-. congruence.
  - split; [|done]. intros _. exists pd, rng. split_and!; [done..|by left].
Qed.

Lemma rangeAdmits_false o d :
  rangeAdmits (Some o) d = Ok false ↔ descriptorRefused (version o) d.
Proof.
  unfold rangeAdmits, descriptorRefused.
  destruct (parseDescriptor (Str.trim d)) as [pd|] eqn:Hpd; simpl.
  2: { split; [done|]. by intros (? & ? & ? & _). }
  destruct (parseRange (range pd)) as [rng|] eqn:Hrng; simpl.
  2: { split; [done|]. intros (? & ? & [= <-] & ? & _). congruence. }
  destruct (truthy (validRange (selector rng))) eqn:Hv; simpl.
  - split.
    + intros [= Hs]. by exists pd, rng.
    + intros (? & ? & [= <-] & Hr & _ & ?).
      rewrite Hrng in Hr. injection Hr as <-. congruence.
  - split; [done|]. intros (? & ? & [= <-] & Hr & ? & _).
    rewrite Hrng in Hr. injection Hr as <-. congruence.
Qed.

Lemma rangeAdmits_fail o d :
  (∃ e, rangeAdmits (Some o) d = Fail e) ↔ descriptorUnparsable d.
Proof.
  unfold rangeAdmits, descriptorUnparsable.
  destruct (parseDescriptor (Str.trim d)) as [pd|] eqn:Hpd; simpl.
  2: { split; [by left|by eexists]. }
  destruct (parseRange (range pd)) as [rng|] eqn:Hrng; simpl.
  2: { split; [right; by exists pd|by eexists]. }
  split.
  - intros [e He]. by destruct (negb _).
  - intros [?|(? & [= <-] & ?)]; congruence.
Qed.

Lemma Forall_admitted o ds :
  Forall (fun d => rangeAdmits (Some o) d = Ok true) ds ↔
  Forall (descriptorAdmitted (version o)) ds.
Proof. apply Forall_proper; [|done]. intros d. apply rangeAdmits_true. Qed.

Lemma allDescriptorsAdmit_true k o :
  allDescriptorsAdmit k (Some o) = Ok true ↔ admits (version o) k.
Proof.
  unfold allDescriptorsAdmit, admits. by rewrite every_true, Forall_admitted.
Qed.

Lemma allDescriptorsAdmit_false k o :
  allDescriptorsAdmit k (Some o) = Ok false ↔ refuses (version o) k.
Proof.
  unfold allDescriptorsAdmit, refuses. rewrite every_false.
  split; intros (ds1 & d & ds2 & Hs & H1 & Hd); exists ds1, d, ds2;
    (split_and!; [done|by apply Forall_admitted|by apply rangeAdmits_false]).
Qed.

Lemma allDescriptorsAdmit_breaks k o :
  breaksOn (version o) k → ∃ e, allDescriptorsAdmit k (Some o) = Fail e.
Proof.
  intros (ds1 & d & ds2 & Hs & H1 & Hd).
  apply (rangeAdmits_fail o) in Hd as [e He]. exists e.
  unfold allDescriptorsAdmit. apply every_fail. exists ds1, d, ds2.
  split_and!; [done|by apply Forall_admitted|done].
Qed.

(** A version cannot both admit and refuse a key. *)
Lemma admits_not_refuses v k : admits v k → refuses v k → False.
Proof.
  pose (o := {| version := v; resolution := EmptyString; dependencies := None;
                checksum := None; languageName := None; linkType := None |}).
  intros Ha%(allDescriptorsAdmit_true k o) Hr%(allDescriptorsAdmit_false k o).
  congruence.
Qed.

(** The candidates before the one the search returns refuse the key; the
    one it returns admits it. *)
Lemma firstAdmitting_Some_words pkgs k cands od o :
  (∀ c, c ∈ cands → is_Some (Obj.get pkgs c)) →
  firstAdmitting pkgs k cands = Ok (Some (od, o)) →
  ∃ pre post,
    cands = pre ++ od :: post ∧
    Forall (candidateRefuses pkgs k) pre ∧
    Obj.get pkgs od = Some o ∧ admits (version o) k.
Proof.
  intros Hc (pre & post & -> & Hpre & Hod & Ho)%firstAdmitting_Some.
  exists pre, post. split_and!; [done| |done|].
  - rewrite Forall_forall in Hpre. apply Forall_forall. intros c Hin.
    destruct (Hc c) as [oc Hoc]; [apply elem_of_app; by left|].
    exists oc. split; [done|]. apply allDescriptorsAdmit_false.
    rewrite <- Hoc. by apply Hpre.
  - apply allDescriptorsAdmit_true. by rewrite <- Ho.
Qed.

Lemma firstAdmitting_None_words pkgs k cands :
  (∀ c, c ∈ cands → is_Some (Obj.get pkgs c)) →
  firstAdmitting pkgs k cands = Ok None →
  Forall (candidateRefuses pkgs k) cands.
Proof.
  intros Hc Hf%firstAdmitting_None.
  rewrite Forall_forall in Hf. apply Forall_forall. intros c Hin.
  destruct (Hc c Hin) as [oc Hoc]. exists oc. split; [done|].
  apply allDescriptorsAdmit_false. rewrite <- Hoc. by apply Hf.
Qed.

(** The keys of a bucket of the index are keys of the original lockfile. *)
Lemma bucket_present pkgs idx nm cands c :
  buildIndex pkgs = Ok idx → idx !! nm = Some cands → c ∈ cands →
  is_Some (Obj.get pkgs c).
Proof.
  intros Hb Hi Hc. rewrite (buildIndex_lookup _ _ _ _ Hb Hi) in Hc.
  by apply keysNamed_elem in Hc as (_ & o & -> & _).
Qed.

(** The bucket of a name that some package key has. *)
Lemma bucket_of_name pkgs idx nm od :
  buildIndex pkgs = Ok idx → od ∈ keysNamed pkgs nm →
  idx !! nm = Some (keysNamed pkgs nm).
Proof.
  intros Hb Hod. unfold buildIndex in Hb.
  rewrite (forEachR_index _ _ _ _ nm Hb), lookup_empty. unfold keysNamed in *.
  destruct (List.filter (named pkgs nm) (Obj.keys pkgs)); [|done].
  by apply elem_of_nil in Hod.
Qed.

(** A pass over two lists of keys in a row. *)
Lemma pass_app idx packages pkgs l1 l2 st :
  decide_all idx packages pkgs (l1 ++ l2) st =
  match decide_all idx packages pkgs l1 st with
  | (Ok st1, ms1) =>
      let '(r, ms2) := decide_all idx packages pkgs l2 st1 in (r, ms1 ++ ms2)
  | (Fail e, ms1) => (Fail e, ms1)
  end.
Proof.
  revert st. induction l1 as [|k l1 IH]; intros st; simpl.
  { by destruct (decide_all idx packages pkgs l2 st). }
  destruct (decide_entry idx packages pkgs k (Obj.get (newPkgs st) k))
    as [v|e]; [|done].
  rewrite IH.
  destruct (decide_all idx packages pkgs l1 (applyVerdict k v st))
    as [[st1|e] ms1]; [|done].
  destruct (decide_all idx packages pkgs l2 st1) as [r ms2].
  by rewrite app_assoc.
Qed.

(** A line about a key comes from the verdict on that key. *)
Lemma verdictLines_key k v m k' :
  m ∈ verdictLines k v → lineKey m = Some k' → k' = k.
Proof.
  destruct v; simpl; intros Hm;
    repeat match goal with
           | H : _ ∈ [] |- _ => by apply elem_of_nil in H
           | H : _ ∈ [_] |- _ => apply list_elem_of_singleton in H as ->
           end; simpl; congruence.
Qed.

(** A pass that meets a key it cannot decide throws there or before, and
    what it has printed is about keys before that one. *)
(** A pass that throws has visited the keys before the one it throws at,
    and printed the lines of those. *)
Lemma pass_fail_prefix idx packages pkgs ks st e ms :
  decide_all idx packages pkgs ks st = (Fail e, ms) →
  ∃ visited k0 rest st1,
    ks = visited ++ k0 :: rest ∧
    decide_all idx packages pkgs visited st = (Ok st1, ms) ∧
    decide_entry idx packages pkgs k0 (Obj.get (newPkgs st1) k0) = Fail e.
Proof.
  revert st ms. induction ks as [|k rest IH]; intros st ms; simpl; [done|].
  destruct (decide_entry idx packages pkgs k (Obj.get (newPkgs st) k))
    as [v|e0] eqn:Hv.
  - destruct (decide_all idx packages pkgs rest (applyVerdict k v st))
      as [r ms'] eqn:Hrest.
    intros [= -> <-].
    destruct (IH _ _ Hrest) as (visited & k0 & rest' & st1 & -> & Hvis & Hk0).
    exists (k :: visited), k0, rest', st1. simpl. by rewrite Hv, Hvis.
  - intros [= <- <-]. by exists [], k, rest, st.
Qed.

Lemma pass_stops_at idx packages pkgs l1 k l2 st err :
  k ∉ l1 →
  decide_entry idx packages pkgs k (Obj.get (newPkgs st) k) = Fail err →
  ∃ err' visited rest st1 ms,
    l1 ++ k :: l2 = visited ++ rest ∧ k ∈ rest ∧
    decide_all idx packages pkgs visited st = (Ok st1, ms) ∧
    decide_all idx packages pkgs (l1 ++ k :: l2) st = (Fail err', ms).
Proof.
  intros Hk Hv. rewrite pass_app.
  destruct (decide_all idx packages pkgs l1 st) as [[st1|e] ms1] eqn:H1.
  - simpl. rewrite (pass_other _ _ _ _ _ _ _ _ H1 Hk), Hv.
    exists err, l1, (k :: l2), st1, ms1. rewrite app_nil_r.
    split_and!; [done|left|done|done].
  - destruct (pass_fail_prefix _ _ _ _ _ _ _ H1)
      as (visited & k0 & rest & st1 & -> & Hvis & _).
    exists e, visited, (k0 :: rest ++ k :: l2), st1, ms1.
    split_and!; [by rewrite <- app_assoc| |done|done].
    right. apply elem_of_app. right. left.
Qed.

End SpecWordsFacts.

(** ** The properties of the script *)

Section Properties.
Context `{X : Externals}.

Lemma elem_of_existsb (ms : list Message) m :
  m ∈ ms → isDowngrade m = true → existsb isDowngrade ms = true.
Proof.
  intros Hm Hd. apply existsb_exists. exists m. by rewrite <- list_elem_of_In.
Qed.


(** C10.  The mapping of one pass, which is the mapping written when
    something changed and the reloaded one otherwise, has the keys of the
    reloaded lockfile, in the same order; under each key it has the
    reloaded entry or an original entry taken from a bucket of the
    index. *)
Theorem diff_keeps_keys lockFile idx packages pkgs (w w' : World) changed :
  upgradeSelectedPackages lockFile idx packages pkgs w = (Ok changed, w') →
  ∃ reloaded final,
    loaded lockFile w = Ok reloaded ∧
    final.*1 = reloaded.*1 ∧
    Obj.keys final = Obj.keys reloaded ∧
    (∀ k, Obj.get final k = Obj.get reloaded k ∨
          ∃ nm cands od o,
            idx !! nm = Some cands ∧ od ∈ cands ∧
            Obj.get pkgs od = Some o ∧
            is_Some (Obj.get reloaded k) ∧ Obj.get final k = Some o) ∧
    if changed : bool
    then files w' = <[lockFile := yarnLockHeader +:+ stringifySyml final]> (files w)
    else final = reloaded ∧ files w' = files w.
Proof.
  rewrite upgradeSelectedPackages_run, diffPass_run.
  destruct (loaded lockFile w) as [reloaded|e]; [|done].
  destruct (decide_all idx packages pkgs (Obj.keys reloaded) _)
    as [[st|e] ms] eqn:Hpass; [|done].
  intros Hw. exists reloaded, (newPkgs st).
  pose proof (pass_fst _ _ _ _ _ _ _ Hpass) as Hfst. simpl in Hfst.
  split_and!; [done|done|by apply keys_fst| |].
  - intros k. destruct (pass_get _ _ _ _ _ _ _ k Hpass)
      as [?|(cur & nm & od & c & o & Hk & Hv & Hget & _)]; [by left|right].
    apply decide_entry_means in Hv as (_ & cands & _ & _ & Hidx & _ & Hf & _).
    apply firstAdmitting_Some in Hf as (pre & post & -> & _ & _ & Ho).
    exists nm, (pre ++ od :: post), od, o.
    split_and!; [done| |done|by apply elem_of_keys|done].
    apply elem_of_app. right. left.
  - destruct (hasChange st) eqn:Hch; injection Hw as <- <-; [done|].
    split; [|done].
    apply pass_change in Hpass as Hms. rewrite Hch in Hms. simpl in Hms.
    by rewrite (pass_quiet _ _ _ _ _ _ _ Hpass).
Qed.

(** C8.  No key that begins with two underscores enters a bucket of the
    index; in a pass, the entry under such a key is after the pass what it
    was in the reloaded lockfile, and no line is printed about it; the
    mapping that is serialised on a change is that of the pass. *)
Theorem metadata_keys_pass_through pkgs :
  (∀ idx nm cands k,
     buildIndex pkgs = Ok idx → idx !! nm = Some cands → k ∈ cands →
     Str.startsWith "__" k = false) ∧
  (∀ lockFile idx packages (w w' : World) st,
     diffPass lockFile idx packages pkgs w = (Ok st, w') →
     ∃ reloaded ms,
       loaded lockFile w = Ok reloaded ∧ w' = say ms w ∧
       (∀ k, Str.startsWith "__" k = true →
             Obj.get (newPkgs st) k = Obj.get reloaded k) ∧
       (∀ m k, m ∈ ms → lineKey m = Some k → Str.startsWith "__" k = false) ∧
       upgradeSelectedPackages lockFile idx packages pkgs w
       = if hasChange st
         then (Ok true,
               written lockFile
                 (yarnLockHeader +:+ stringifySyml (newPkgs st)) w')
         else (Ok false, w')).
Proof.
  split.
  - intros idx nm cands k Hidx Hnm Hk.
    rewrite (buildIndex_lookup _ _ _ _ Hidx Hnm) in Hk.
    by apply keysNamed_elem in Hk as [? _].
  - intros lockFile idx packages w w' st Hpass.
    rewrite upgradeSelectedPackages_run, Hpass.
    rewrite diffPass_run in Hpass.
    destruct (loaded lockFile w) as [reloaded|e]; [|done].
    destruct (decide_all idx packages pkgs (Obj.keys reloaded) _)
      as [r ms] eqn:Hall.
    injection Hpass as -> <-. exists reloaded, ms.
    split_and!; [done|done| | |done].
    + intros k Hk. by rewrite (pass_meta _ _ _ _ _ _ _ k Hall Hk).
    + intros m k Hm Hkey.
      destruct (pass_lines _ _ _ _ _ _ _ m Hall Hm) as (k' & cur & v & _ & Hv & Hl).
      apply decide_entry_means in Hv.
      destruct v; simpl in Hl;
        repeat match goal with
               | H : _ ∈ [] |- _ => by apply elem_of_nil in H
               | H : _ ∈ [_] |- _ => apply list_elem_of_singleton in H as ->
               end;
        simpl in Hkey; try done; injection Hkey as <-; by destruct Hv.
Qed.

(** Only a package that is indexed and out of the pattern is downgraded. *)
Lemma pass_downgrade idx packages pkgs ks st r ms nm from to :
  decide_all idx packages pkgs ks st = (r, ms) →
  Downgrade nm from to ∈ ms →
  isMatch nm packages = Some false ∧ is_Some (idx !! nm).
Proof.
  intros Hall Hm.
  destruct (pass_lines _ _ _ _ _ _ _ _ Hall Hm) as (k & cur & v & _ & Hv & Hl).
  apply decide_entry_means in Hv.
  destruct v; simpl in Hl;
    repeat match goal with
           | H : _ ∈ [] |- _ => by apply elem_of_nil in H
           | H : _ ∈ [_] |- _ => apply list_elem_of_singleton in H
           end; try done.
  injection Hl as -> -> ->.
  destruct Hv as (_ & cands & _ & _ & Hidx & Hm' & _). by rewrite Hidx.
Qed.

(** C9.  An entry of the reloaded lockfile whose canonical name is not
    in the index is after the pass what it was; the line "New package" is
    printed for its key, and no downgrade of that name; whether the name
    matches the pattern is not asked. *)
Theorem new_package_left_alone
    lockFile idx packages pkgs (w w' : World) st reloaded k e nm :
  diffPass lockFile idx packages pkgs w = (Ok st, w') →
  loaded lockFile w = Ok reloaded →
  Obj.get reloaded k = Some e →
  Str.startsWith "__" k = false →
  extractNameFromDescriptor (resolution e) = Ok nm →
  idx !! nm = None →
  Obj.get (newPkgs st) k = Some e ∧
  ∃ ms, w' = say ms w ∧ NewPackage k ∈ ms ∧
        ∀ from to, Downgrade nm from to ∉ ms.
Proof.
  intros Hpass Hload Hk Hmeta Hnm Hidx.
  rewrite diffPass_run, Hload in Hpass.
  destruct (decide_all idx packages pkgs (Obj.keys reloaded) _)
    as [r ms] eqn:Hall.
  injection Hpass as -> <-.
  destruct (pass_at _ _ _ _ _ _ _ k (NoDup_keys reloaded)
              (proj2 (elem_of_keys reloaded k) (mk_is_Some _ _ Hk)) Hall)
    as (v & Hv & Hget & Hlines).
  simpl in Hv, Hget. rewrite Hk in Hv, Hget.
  unfold decide_entry in Hv. rewrite Hmeta in Hv. simpl in Hv.
  rewrite Hnm in Hv. simpl in Hv. rewrite Hidx in Hv. injection Hv as <-.
  split; [done|]. exists ms. split_and!; [done|apply Hlines; left|].
  intros from to Hd.
  destruct (pass_downgrade _ _ _ _ _ _ _ _ _ _ Hall Hd) as [_ [? ?]].
  congruence.
Qed.

(** C2.  For an entry of the reloaded lockfile under the key [k] whose
    name [nm] is indexed and does not match the pattern: the candidates are
    the original keys named [nm] in the order of the original lockfile.
    Either there is a first candidate [od] whose entry [o] has a version
    that satisfies the range of every comma-separated descriptor of [k] (a
    range that is not a valid one counting as satisfied), every candidate
    before it having a version that some descriptor of [k] refuses; then
    the entry under [k] becomes [o], the change is flagged and the downgrade
    printed if the versions differ, and stays if they are equal.  Or every
    candidate is refused; then the entry stays and "No package found" is
    printed for [k]. *)
Theorem out_of_pattern_entry_takes_first_admitting
    lockFile idx packages pkgs (w w' : World) st reloaded k e nm cands :
  buildIndex pkgs = Ok idx →
  diffPass lockFile idx packages pkgs w = (Ok st, w') →
  loaded lockFile w = Ok reloaded →
  Obj.get reloaded k = Some e →
  Str.startsWith "__" k = false →
  extractNameFromDescriptor (resolution e) = Ok nm →
  idx !! nm = Some cands →
  isMatch nm packages = Some false →
  ∃ ms,
    w' = say ms w ∧ cands = keysNamed pkgs nm ∧
    ((∃ pre od post o,
        cands = pre ++ od :: post ∧
        Forall (candidateRefuses pkgs k) pre ∧
        Obj.get pkgs od = Some o ∧
        admits (version o) k ∧
        if String.eqb (version o) (version e)
        then Obj.get (newPkgs st) k = Some e
        else Obj.get (newPkgs st) k = Some o ∧ hasChange st = true ∧
             Downgrade nm (version e) (version o) ∈ ms)
     ∨
     (Forall (candidateRefuses pkgs k) cands ∧
      Obj.get (newPkgs st) k = Some e ∧ NoPackageFound k ∈ ms)).
Proof.
  intros Hbuild Hpass Hload Hk Hmeta Hnm Hidx Hout.
  rewrite diffPass_run, Hload in Hpass.
  destruct (decide_all idx packages pkgs (Obj.keys reloaded) _)
    as [r ms] eqn:Hall.
  injection Hpass as -> <-. exists ms.
  split_and!; [done|by eapply buildIndex_lookup|].
  destruct (pass_at _ _ _ _ _ _ _ k (NoDup_keys reloaded)
              (proj2 (elem_of_keys reloaded k) (mk_is_Some _ _ Hk)) Hall)
    as (v & Hv & Hget & Hlines).
  simpl in Hv, Hget. rewrite Hk in Hv, Hget.
  unfold decide_entry in Hv. rewrite Hmeta in Hv. simpl in Hv.
  rewrite Hnm in Hv. simpl in Hv. rewrite Hidx, Hout in Hv. simpl in Hv.
  pose proof (fun c => bucket_present pkgs idx nm cands c Hbuild Hidx) as Hin.
  destruct (firstAdmitting pkgs k cands) as [[[od o]|]|] eqn:Hf;
    simpl in Hv; [| |done]; injection Hv as <-.
  - left.
    apply firstAdmitting_Some_words in Hf
      as (pre & post & -> & Hpre & Ho & Hadm); [|done].
    exists pre, od, post, o. split_and!; [done..|].
    destruct (String.eqb (version o) (version e)); [done|].
    assert (Downgrade nm (version e) (version o) ∈ ms) as Hd
      by (apply Hlines; left).
    split_and!; [done| |done].
    rewrite (pass_change _ _ _ _ _ _ _ Hall). simpl.
    by apply (elem_of_existsb _ _ Hd).
  - right. apply firstAdmitting_None_words in Hf; [|done].
    split_and!; [done|done|apply Hlines; left].
Qed.

(** C3, as amended.  For a descriptor that parses, with the selector
    [sel] of its range: the check on the original version is true exactly
    when [validRange sel] is falsy or the version satisfies [sel]; the
    empty selector has no case of its own; and when [sel] is not a valid
    range the check is true whatever the candidate. *)
Theorem rangeAdmits_iff desc pd rng :
  parseDescriptor (Str.trim desc) = Some pd →
  parseRange (range pd) = Some rng →
  (∀ o, ∃ b,
      rangeAdmits (Some o) desc = Ok b ∧
      (b = true ↔ truthy (validRange (selector rng)) = false ∨
                  satisfies (version o) (selector rng) = true)) ∧
  (validRange (selector rng) = None →
   ∀ origPkg, rangeAdmits origPkg desc = Ok true).
Proof.
  intros Hpd Hrng. unfold rangeAdmits. rewrite Hpd. simpl. rewrite Hrng. simpl.
  split.
  - intros o. destruct (truthy (validRange (selector rng))); simpl.
    + eexists. split; [done|]. split; [by right|by intros [?|?]].
    + exists true. split; [done|]. split; [by left|done].
  - by intros ->.
Qed.

(** *** The loop *)

Lemma convergenceLoop_unfold n lockFile idx packages pkgs dir (w : World) :
  convergenceLoop n lockFile idx packages pkgs dir w =
  match run "jlpm install" dir w with
  | (Ok _, w1) =>
      match upgradeSelectedPackages lockFile idx packages pkgs w1 with
      | (Ok true, w2) =>
          match n with
          | S n' => convergenceLoop n' lockFile idx packages pkgs dir w2
          | O => (Ok tt, w2)
          end
      | (Ok false, w2) => (Ok tt, w2)
      | (Fail e, w2) => (Fail e, w2)
      end
  | (Fail e, w1) => (Fail e, w1)
  end.
Proof.
  destruct n; simpl; rewrite run_bind;
    destruct (run "jlpm install" dir w) as [[[]|e] w1]; try done;
    rewrite run_bind;
    by destruct (upgradeSelectedPackages lockFile idx packages pkgs w1)
      as [[[|]|e] w2].
Qed.

Lemma upgradeLock_unfold packages options (w : World) :
  upgradeLock packages options w =
  let lockFile := default "yarn.lock" (lock options) in
  match loaded lockFile w with
  | Ok pkgs =>
      match buildIndex pkgs with
      | Ok idx =>
          match convergenceLoop 5 lockFile idx packages pkgs (cwd options) w with
          | (Ok _, wl) => run "jlpm install --immutable" (cwd options) wl
          | (Fail e, wl) => (Fail e, wl)
          end
      | Fail e => (Fail e, w)
      end
  | Fail e => (Fail e, w)
  end.
Proof.
  unfold upgradeLock. simpl. rewrite run_bind, loadPackages_loaded.
  destruct (loaded _ w) as [pkgs|e]; [|done].
  rewrite run_liftR_bind. destruct (buildIndex pkgs) as [idx|e]; [|done].
  rewrite run_bind.
  by destruct (convergenceLoop 5 (default "yarn.lock" (lock options)) idx
                 packages pkgs (cwd options) w) as [[[]|e] wl].
Qed.

Lemma run_trace cmd dir (w w' : World) r :
  run cmd dir w = (r, w') → trace w' = trace w ++ [Ran cmd dir].
Proof.
  unfold run. destruct (exec cmd dir (env w) (files w)) as [[e' fs']|];
    by intros [= <- <-].
Qed.

Lemma grown_le packages n n' (w w' : World) :
  grown packages n w w' → n ≤ n' → grown packages n' w w'.
Proof.
  intros (evs & ? & ? & ?) ?. exists evs. split_and!; [done|lia|done].
Qed.

Lemma mutableInstalls_app t1 t2 :
  mutableInstalls (t1 ++ t2) = mutableInstalls t1 + mutableInstalls t2.
Proof. unfold mutableInstalls. by rewrite List.filter_app, length_app. Qed.

Lemma mutableInstalls_printed ms : mutableInstalls (Printed <$> ms) = 0.
Proof. by induction ms. Qed.

Lemma grown_trans packages n1 n2 (w1 w2 w3 : World) :
  grown packages n1 w1 w2 → grown packages n2 w2 w3 →
  grown packages (n1 + n2) w1 w3.
Proof.
  intros (evs1 & Ht1 & Hn1 & Hd1) (evs2 & Ht2 & Hn2 & Hd2).
  exists (evs1 ++ evs2). rewrite Ht2, Ht1, <- app_assoc.
  split_and!; [done|rewrite mutableInstalls_app; lia|].
  intros nm from to [?|?]%elem_of_app; eauto.
Qed.

Lemma run_grown packages cmd dir (w w' : World) r :
  run cmd dir w = (r, w') → grown packages 1 w w'.
Proof.
  intros Hrun%run_trace. exists [Ran cmd dir]. split_and!; [done| |].
  - unfold mutableInstalls. simpl. destruct (String.eqb cmd _); simpl; lia.
  - by intros ??? ?%list_elem_of_singleton.
Qed.

(** What one call of [upgradeSelectedPackages] adds to the trace. *)
Lemma upgradeSelectedPackages_grown
    lockFile idx packages pkgs (w w' : World) r :
  upgradeSelectedPackages lockFile idx packages pkgs w = (r, w') →
  grown packages 0 w w'.
Proof.
  rewrite upgradeSelectedPackages_run, diffPass_run.
  destruct (loaded lockFile w) as [reloaded|e].
  2: { intros [= <- <-]. exists []. rewrite app_nil_r.
       split_and!; [done..|]. by intros ??? ?%elem_of_nil. }
  destruct (decide_all idx packages pkgs (Obj.keys reloaded) _)
    as [r0 ms] eqn:Hall.
  assert (grown packages 0 w (say ms w)) as Hsay.
  { exists (Printed <$> ms).
    split_and!; [done|by rewrite mutableInstalls_printed|].
    intros nm from to (m & [= <-] & Hm)%list_elem_of_fmap.
    by destruct (pass_downgrade _ _ _ _ _ _ _ _ _ _ Hall Hm). }
  destruct r0 as [st|e]; [destruct (hasChange st)|]; intros [= <- <-];
    [|done..].
  apply (grown_trans _ 0 0 _ _ _ Hsay).
  eexists [Wrote _ _]. split_and!; [done..|].
  by intros ??? ?%list_elem_of_singleton.
Qed.

(** The loop runs the mutable install at most once more than the counter
    says, whatever the resolver does, and downgrades only packages out of
    the pattern. *)
Lemma convergenceLoop_grown n lockFile idx packages pkgs dir (w w' : World) r :
  convergenceLoop n lockFile idx packages pkgs dir w = (r, w') →
  grown packages (S n) w w'.
Proof.
  revert w. induction n as [|n IH]; intros w; rewrite convergenceLoop_unfold;
    destruct (run "jlpm install" dir w) as [r1 w1] eqn:Hrun;
    apply (run_grown packages) in Hrun;
    (destruct r1 as [[]|e];
     [|intros [= <- <-]; eapply grown_le; [done|lia]]);
    destruct (upgradeSelectedPackages lockFile idx packages pkgs w1)
      as [r2 w2] eqn:Hpass;
    apply upgradeSelectedPackages_grown in Hpass;
    pose proof (grown_trans _ _ _ _ _ _ Hrun Hpass) as Hstep.
  - destruct r2 as [[|]|e]; by intros [= <- <-].
  - destruct r2 as [[|]|e];
      [|intros [= <- <-]; eapply grown_le; [done|lia]..].
    intros Hrest%IH. eapply grown_le; [by eapply grown_trans|lia].
Qed.




(** Whatever the resolver does, a run installs in mutable mode at most
    six times. *)
Lemma upgradeLock_installs_bound packages options (w w' : World) r :
  upgradeLock packages options w = (r, w') →
  ∃ evs, trace w' = trace w ++ evs ∧ mutableInstalls evs ≤ 6.
Proof.
  rewrite upgradeLock_unfold. cbv zeta.
  assert (∃ evs, trace w = trace w ++ evs ∧ mutableInstalls evs ≤ 6) as Hnil.
  { exists []. rewrite app_nil_r. split; [done|]. unfold mutableInstalls.
    simpl. lia. }
  destruct (loaded _ w) as [pkgs|e]; [|by intros [= <- <-]].
  destruct (buildIndex pkgs) as [idx|e]; [|by intros [= <- <-]].
  destruct (convergenceLoop 5 (default "yarn.lock" (lock options)) idx
              packages pkgs (cwd options) w) as [r5 wl] eqn:Hloop.
  apply convergenceLoop_grown in Hloop as (evs & Ht & Hn & _).
  destruct r5 as [[]|e]; [|intros [= <- <-]; by exists evs].
  intros Hcheck%run_trace.
  exists (evs ++ [Ran "jlpm install --immutable" (cwd options)]).
  rewrite Hcheck, Ht, <- app_assoc. split; [done|].
  rewrite mutableInstalls_app. unfold mutableInstalls at 2. simpl. lia.
Qed.

(** *** Exceptions *)

(** The loop throws what a pass it comes to throws. *)
Lemma loop_fails_where_pass_fails
    n lockFile idx packages pkgs dir (w0 w w' : World) err :
  reachesPass n lockFile idx packages pkgs dir w0 w →
  upgradeSelectedPackages lockFile idx packages pkgs w = (Fail err, w') →
  convergenceLoop n lockFile idx packages pkgs dir w0 = (Fail err, w').
Proof.
  intros Hreach Hup. revert w0 Hreach.
  induction n as [|n IH]; intros w0; rewrite convergenceLoop_unfold; simpl;
    destruct (run "jlpm install" dir w0) as [[[]|e] w1]; try done;
    (intros [->|Hreach]; [by rewrite Hup|]);
    destruct (upgradeSelectedPackages lockFile idx packages pkgs w1)
      as [[[|]|e] w2]; try done.
  by apply IH.
Qed.

Lemma reachesPass_first n lockFile idx packages pkgs dir (w0 w : World) :
  run "jlpm install" dir w0 = (Ok tt, w) →
  reachesPass n lockFile idx packages pkgs dir w0 w.
Proof. intros Hrun. destruct n; simpl; rewrite Hrun; by left. Qed.

(** C5, as amended.  No entry is skipped for a string that cannot be
    decomposed.  Take a package entry of the reloaded lockfile, under the
    key [k], whose resolution has no name; or one whose name is out of the
    pattern and has original entries, one of which has a version that
    meets, reading the descriptors of [k] in order, a descriptor or a range
    that cannot be decomposed before any range it does not satisfy, the
    original entries of the name before that one being refused by [k].
    Then [upgradeSelectedPackages] throws.  The loop over the keys has
    stopped at [k] or before: the lines printed are those of the keys
    visited until then, and nothing is written.  The loop of [upgradeLock]
    throws the same exception whenever one of its passes is this one, with
    no further install, and so does [upgradeLock]. *)
Theorem malformed_entry_aborts
    lockFile idx packages pkgs (w : World) reloaded k e :
  buildIndex pkgs = Ok idx →
  loaded lockFile w = Ok reloaded →
  Obj.get reloaded k = Some e →
  Str.startsWith "__" k = false →
  ((∃ err, extractNameFromDescriptor (resolution e) = Fail err) ∨
   (∃ nm pre c post oc,
      extractNameFromDescriptor (resolution e) = Ok nm ∧
      isMatch nm packages = Some false ∧
      keysNamed pkgs nm = pre ++ c :: post ∧
      Forall (candidateRefuses pkgs k) pre ∧
      Obj.get pkgs c = Some oc ∧
      breaksOn (version oc) k)) →
  ∃ err visited rest st1 ms,
    Obj.keys reloaded = visited ++ rest ∧ k ∈ rest ∧
    forEach (diffEntry idx packages pkgs) visited
            {| newPkgs := reloaded; hasChange := false |} w
    = (Ok st1, say ms w) ∧
    upgradeSelectedPackages lockFile idx packages pkgs w
    = (Fail err, say ms w) ∧
    (∀ n dir (w0 : World),
       reachesPass n lockFile idx packages pkgs dir w0 w →
       convergenceLoop n lockFile idx packages pkgs dir w0
       = (Fail err, say ms w)) ∧
    (∀ options (w0 : World),
       lockFile = default "yarn.lock" (lock options) →
       loaded lockFile w0 = Ok pkgs →
       reachesPass 5 lockFile idx packages pkgs (cwd options) w0 w →
       upgradeLock packages options w0 = (Fail err, say ms w)).
Proof.
  intros Hbuild Hload Hk Hmeta Hbad.
  assert (∃ err, decide_entry idx packages pkgs k (Obj.get reloaded k) = Fail err)
    as [err Hv].
  { unfold decide_entry. rewrite Hmeta, Hk. simpl.
    destruct Hbad
      as [[err ->]|(nm & pre & c & post & oc & -> & Hm & Hc & Hpre & Hoc & Hbr)];
      simpl; [by eexists|].
    assert (c ∈ keysNamed pkgs nm) as Hin.
    { rewrite Hc. apply elem_of_app. right. left. }
    rewrite (bucket_of_name _ _ _ _ Hbuild Hin), Hm, Hc. simpl.
    clear Hc Hin. induction Hpre as [|c0 pre (o0 & Ho0 & Href) _ IH]; simpl.
    - rewrite Hoc. destruct (allDescriptorsAdmit_breaks _ _ Hbr) as [err ->].
      simpl. by eexists.
    - rewrite Ho0, (proj2 (allDescriptorsAdmit_false _ _) Href). simpl.
      apply IH. }
  destruct (list_elem_of_split _ _
              (proj2 (elem_of_keys reloaded k) (mk_is_Some _ _ Hk)))
    as (l1 & l2 & Hkeys).
  pose proof (NoDup_keys reloaded) as Hnd. rewrite Hkeys in Hnd.
  apply NoDup_app in Hnd as (_ & Hnot & _).
  assert (k ∉ l1) as Hk1.
  { intros Hin. apply (Hnot k Hin). left. }
  destruct (pass_stops_at idx packages pkgs l1 k l2
              {| newPkgs := reloaded; hasChange := false |} err Hk1 Hv)
    as (err' & visited & rest & st1 & ms & Hsplit & Hrest & Hvis & Hall).
  rewrite <- Hkeys in Hall, Hsplit.
  assert (upgradeSelectedPackages lockFile idx packages pkgs w
          = (Fail err', say ms w)) as Hup.
  { by rewrite upgradeSelectedPackages_run, diffPass_run, Hload, Hall. }
  exists err', visited, rest, st1, ms.
  split_and!; [done|done|by rewrite forEach_decide, Hvis|done| |].
  - intros n dir w0 Hreach. by eapply loop_fails_where_pass_fails.
  - intros options w0 -> Hload0 Hreach.
    rewrite upgradeLock_unfold. cbv zeta. rewrite Hload0, Hbuild.
    by rewrite (loop_fails_where_pass_fails _ _ _ _ _ _ _ _ _ _ Hreach Hup).
Qed.

(** *** A lockfile the pass leaves alone *)

Lemma nameOf_Some pkgs k nm :
  nameOf pkgs k = Some nm ↔
  ∃ c, Obj.get pkgs k = Some c ∧
       extractNameFromDescriptor (resolution c) = Ok nm.
Proof.
  unfold nameOf. destruct (Obj.get pkgs k) as [c|]; simpl.
  - destruct (extractNameFromDescriptor (resolution c)) as [nm'|] eqn:Hn.
    + split; [intros [= <-]; by exists c|intros (c' & [= <-] & Hc)]; congruence.
    + split; [done|intros (c' & [= <-] & Hc); congruence].
  - split; [done|by intros (c & ? & _)].
Qed.

Lemma forEachR_index_total pkgs ks idx0 :
  (∀ k, k ∈ ks → Str.startsWith "__" k = true ∨ is_Some (nameOf pkgs k)) →
  ∃ idx, forEachR (indexEntry pkgs) ks idx0 = Ok idx.
Proof.
  revert idx0. induction ks as [|k rest IH]; intros idx0 Hks; simpl.
  { by eexists. }
  assert (∃ idx1, indexEntry pkgs idx0 k = Ok idx1) as [idx1 ->].
  { unfold indexEntry.
    destruct (Hks k) as [->|[nm (c & -> & Hnm)%nameOf_Some]];
      [left|by eexists|].
    destruct (Str.startsWith "__" k); [by eexists|].
    simpl. rewrite Hnm. simpl. by eexists. }
  simpl. apply IH. intros k' ?. apply Hks. by right.
Qed.

Lemma readable_key packages F k :
  readable packages F = true → k ∈ Obj.keys F →
  Str.startsWith "__" k = true ∨
  ∃ nm, nameOf F k = Some nm ∧
        (isMatch nm packages = Some true ∨
         isMatch nm packages = Some false ∧ descriptorsParse k = true).
Proof.
  unfold readable. rewrite forallb_forall. intros Hall Hk.
  specialize (Hall k (proj1 (list_elem_of_In _ _) Hk)).
  apply orb_prop in Hall as [?|Hall]; [by left|right].
  destruct (nameOf F k) as [nm|]; [|done]. exists nm. split; [done|].
  destruct (isMatch nm packages) as [[|]|]; [by left|by right|done].
Qed.

Lemma allDescriptorsAdmit_total k o :
  descriptorsParse k = true → ∃ b, allDescriptorsAdmit k (Some o) = Ok b.
Proof.
  unfold descriptorsParse, allDescriptorsAdmit.
  induction (Str.split "," k) as [|d ds IH]; simpl; [by eexists|].
  intros [Hd Hds]%andb_prop.
  assert (∃ b, rangeAdmits (Some o) d = Ok b) as [b ->].
  { unfold rangeAdmits.
    destruct (parseDescriptor (Str.trim d)) as [pd|]; [|done]. simpl.
    apply bool_decide_eq_true in Hd as [rng ->]. simpl.
    destruct (negb _); by eexists. }
  simpl. destruct b; [by apply IH|by eexists].
Qed.

Lemma firstAdmitting_total pkgs k cands :
  descriptorsParse k = true →
  (∀ od, od ∈ cands → is_Some (Obj.get pkgs od)) →
  ∃ found, firstAdmitting pkgs k cands = Ok found.
Proof.
  intros Hk. induction cands as [|od rest IH]; intros Hc; simpl; [by eexists|].
  destruct (Hc od) as [o Ho]; [left|]. rewrite Ho.
  destruct (allDescriptorsAdmit_total k o Hk) as [[|] ->]; simpl; [by eexists|].
  apply IH. intros od' ?. apply Hc. by right.
Qed.

Lemma pass_total_once idx packages pkgs ks st :
  NoDup ks →
  (∀ k, k ∈ ks →
     ∃ v, decide_entry idx packages pkgs k (Obj.get (newPkgs st) k) = Ok v) →
  ∃ st' ms, decide_all idx packages pkgs ks st = (Ok st', ms).
Proof.
  revert st. induction ks as [|k rest IH]; intros st Hnd Hks; simpl.
  { by eexists _, _. }
  apply NoDup_cons in Hnd as [Hk Hnd].
  destruct (Hks k) as [v Hv]; [left|]. rewrite Hv.
  destruct (IH (applyVerdict k v st) Hnd) as (st' & ms & ->);
    [|by eexists _, _].
  intros k' Hk'. rewrite applyVerdict_other; [apply Hks; by right|].
  by intros ->.
Qed.

Lemma readable_verdict packages pkgs idx reloaded k :
  buildIndex pkgs = Ok idx →
  readable packages reloaded = true →
  k ∈ Obj.keys reloaded →
  ∃ v, decide_entry idx packages pkgs k (Obj.get reloaded k) = Ok v.
Proof.
  intros Hbuild Hread Hk. unfold decide_entry.
  destruct (readable_key _ _ _ Hread Hk)
    as [->|(nm & Hnm & Hm)]; [by eexists|].
  destruct (Str.startsWith "__" k); [by eexists|].
  apply nameOf_Some in Hnm as (c & -> & Hn). simpl. rewrite Hn. simpl.
  destruct (idx !! nm) as [cands|] eqn:Hidx; [|by eexists].
  destruct Hm as [->|[-> Hparse]]; simpl; [by eexists|].
  destruct (firstAdmitting_total pkgs k cands Hparse) as [found ->];
    [|by eexists].
  intros od Hod. rewrite (buildIndex_lookup _ _ _ _ Hbuild Hidx) in Hod.
  by apply keysNamed_elem in Hod as (_ & o & -> & _).
Qed.

(** For a key whose descriptors parse, the check of the script is the
    check of the specification. *)
Lemma allDescriptorsAdmit_admitsb k o :
  descriptorsParse k = true →
  allDescriptorsAdmit k (Some o) = Ok (admitsb (version o) k).
Proof.
  unfold descriptorsParse, allDescriptorsAdmit, admitsb.
  induction (Str.split "," k) as [|d ds IH]; simpl; [done|].
  intros [Hd Hds]%andb_prop.
  destruct (parseDescriptor (Str.trim d)) as [pd|] eqn:Hpd; [|done].
  apply bool_decide_eq_true in Hd as [rng Hrng]. rewrite Hrng.
  assert (rangeAdmits (Some o) d
          = Ok (negb (truthy (validRange (selector rng)))
                || satisfies (version o) (selector rng))) as ->.
  { unfold rangeAdmits. rewrite Hpd. simpl. rewrite Hrng. simpl.
    by destruct (negb (truthy (validRange (selector rng)))). }
  simpl.
  destruct (negb (truthy (validRange (selector rng)))
            || satisfies (version o) (selector rng)); simpl; [by apply IH|done].
Qed.

Lemma firstAdmitting_firstAdmittedBy F k cands :
  descriptorsParse k = true →
  (∀ od, od ∈ cands → is_Some (Obj.get F od)) →
  firstAdmitting F k cands = Ok (firstAdmittedBy F k cands).
Proof.
  intros Hk. induction cands as [|od rest IH]; intros Hc; simpl; [done|].
  destruct (Hc od) as [o Ho]; [left|].
  rewrite Ho, (allDescriptorsAdmit_admitsb _ _ Hk). simpl.
  destruct (admitsb (version o) k); simpl; [done|].
  apply IH. intros od' ?. apply Hc. by right.
Qed.

Lemma forallb_false {A} (f : A → bool) l :
  forallb f l = false → ∃ x, x ∈ l ∧ f x = false.
Proof.
  induction l as [|a l IH]; simpl; [done|].
  destruct (f a) eqn:Ha; simpl.
  - intros (x & ? & ?)%IH. exists x. split; [by right|done].
  - intros _. exists a. split; [left|done].
Qed.

(** What the pass decides for a package key out of the pattern of a
    readable lockfile that is its own original. *)
Lemma own_verdict packages F idx k c nm :
  buildIndex F = Ok idx →
  readable packages F = true →
  k ∈ Obj.keys F →
  Str.startsWith "__" k = false →
  Obj.get F k = Some c →
  nameOf F k = Some nm →
  isMatch nm packages = Some false →
  decide_entry idx packages F k (Obj.get F k)
  = Ok match firstAdmittedBy F k (keysNamed F nm) with
       | None => Unmatched nm
       | Some (od, o) =>
           if String.eqb (version o) (version c)
           then Unchanged nm od else Reverted nm od c o
       end.
Proof.
  intros Hbuild Hread Hk Hmeta Hc Hnm Hm.
  assert (descriptorsParse k = true) as Hparse.
  { destruct (readable_key _ _ _ Hread Hk) as [?|(nm' & Hnm' & Hm')];
      [congruence|].
    assert (nm' = nm) as -> by congruence.
    destruct Hm' as [?|[_ ?]]; [congruence|done]. }
  assert (k ∈ keysNamed F nm) as Hin.
  { apply list_elem_of_In, filter_In. split; [by apply list_elem_of_In|].
    unfold named. rewrite Hmeta, Hnm. simpl. by apply bool_decide_eq_true. }
  unfold decide_entry. rewrite Hmeta, Hc. simpl.
  apply nameOf_Some in Hnm as (c' & Hc' & Hn).
  assert (c' = c) as -> by congruence. rewrite Hn. simpl.
  rewrite (bucket_of_name _ _ _ _ Hbuild Hin), Hm. simpl.
  rewrite (firstAdmitting_firstAdmittedBy F k (keysNamed F nm) Hparse).
  - simpl. by destruct (firstAdmittedBy F k (keysNamed F nm)) as [[od o]|].
  - by intros od (_ & o & -> & _)%keysNamed_elem.
Qed.

(** On a readable lockfile, taken as the original one too, in which the
    first entry to admit a key out of the pattern has the version of the
    entry under that key, no verdict is a revert. *)
Lemma settled_verdict packages F idx k :
  buildIndex F = Ok idx →
  readable packages F = true → ownVersionFirst packages F = true →
  k ∈ Obj.keys F →
  ∃ v, decide_entry idx packages F k (Obj.get F k) = Ok v ∧
       existsb isDowngrade (verdictLines k v) = false.
Proof.
  intros Hbuild Hread Hone Hk.
  destruct (Str.startsWith "__" k) eqn:Hmeta.
  { exists Skipped. unfold decide_entry. by rewrite Hmeta. }
  destruct (readable_key _ _ _ Hread Hk)
    as [?|(nm & Hnm & Hm)]; [congruence|].
  pose proof Hnm as (c & Hc & Hn)%nameOf_Some.
  destruct Hm as [Hm|[Hm Hparse]].
  { exists InScope. unfold decide_entry. rewrite Hmeta, Hc. simpl.
    rewrite Hn. simpl.
    destruct (idx !! nm) as [cands|] eqn:Hidx; [by rewrite Hm|].
    assert (k ∈ keysNamed F nm) as Hin.
    { apply list_elem_of_In, filter_In. split; [by apply list_elem_of_In|].
      unfold named. rewrite Hmeta, Hnm. simpl. by apply bool_decide_eq_true. }
    rewrite (bucket_of_name _ _ _ _ Hbuild Hin) in Hidx. done. }
  rewrite (own_verdict packages F idx k c nm); try done.
  unfold ownVersionFirst in Hone. rewrite forallb_forall in Hone.
  specialize (Hone k (proj1 (list_elem_of_In _ _) Hk)).
  rewrite Hmeta, Hc, Hnm, Hm in Hone. simpl in Hone.
  destruct (firstAdmittedBy F k (keysNamed F nm)) as [[od o]|];
    [rewrite Hone|]; by eexists.
Qed.

(** Otherwise some verdict is a revert. *)
Lemma unsettled_verdict packages F idx :
  buildIndex F = Ok idx →
  readable packages F = true → ownVersionFirst packages F = false →
  ∃ k nm od c o,
    k ∈ Obj.keys F ∧
    decide_entry idx packages F k (Obj.get F k) = Ok (Reverted nm od c o).
Proof.
  intros Hbuild Hread Hone.
  apply forallb_false in Hone as (k & Hk & Hone).
  destruct (Str.startsWith "__" k) eqn:Hmeta; [done|]. simpl in Hone.
  destruct (Obj.get F k) as [c|] eqn:Hc; [|done].
  destruct (nameOf F k) as [nm|] eqn:Hnm; [|done].
  destruct (isMatch nm packages) as [[|]|] eqn:Hm; try done.
  exists k, nm.
  rewrite (own_verdict packages F idx k c nm); try done.
  destruct (firstAdmittedBy F k (keysNamed F nm)) as [[od o]|]; [|done].
  rewrite Hone. by exists od, c, o.
Qed.

Lemma pass_stable idx packages pkgs ks st :
  (∀ k, k ∈ ks →
     ∃ v, decide_entry idx packages pkgs k (Obj.get (newPkgs st) k) = Ok v ∧
          existsb isDowngrade (verdictLines k v) = false) →
  ∃ ms, decide_all idx packages pkgs ks st = (Ok st, ms) ∧
        existsb isDowngrade ms = false.
Proof.
  induction ks as [|k rest IH]; intros Hks; simpl; [by exists []|].
  destruct (Hks k) as (v & -> & Hq); [left|].
  rewrite (applyVerdict_quiet _ _ _ Hq).
  destruct IH as (ms & -> & Hms); [intros k' ?; apply Hks; by right|].
  eexists. split; [done|]. by rewrite existsb_app, Hq, Hms.
Qed.

(** C6, as amended.  Take a lockfile [F] whose package keys can all be
    decided and in which, for every package entry out of the pattern, the
    first entry of its name whose version satisfies the range of every
    descriptor of its key, if there is one, has the version of the entry
    itself; a resolver whose mutable install leaves the text of [F] in
    place, and whose immutable install then succeeds.  A run on it installs
    once, prints lines none of which is a downgrade, writes nothing, passes
    to the immutable install and returns. *)
Theorem rerun_is_stable
    packages options (w : World) text F e1 fs1 e2 fs2 :
  let lockFile := default "yarn.lock" (lock options) in
  files w !! lockFile = Some text →
  parseSyml text = Some F →
  exec "jlpm install" (cwd options) (env w) (files w) = Some (e1, fs1) →
  fs1 !! lockFile = Some text →
  exec "jlpm install --immutable" (cwd options) e1 fs1 = Some (e2, fs2) →
  readable packages F = true →
  ownVersionFirst packages F = true →
  ∃ ms,
    existsb isDowngrade ms = false ∧
    upgradeLock packages options w
    = (Ok tt,
       {| files := fs2; env := e2;
          trace := ((trace w ++ [Ran "jlpm install" (cwd options)])
                    ++ (Printed <$> ms))
                   ++ [Ran "jlpm install --immutable" (cwd options)] |}).
Proof.
  intros lockFile Htext HF Hinstall Hkept Hcheck Hread Hone.
  assert (loaded lockFile w = Ok F) as Hload.
  { unfold loaded. rewrite Htext. simpl. by rewrite HF. }
  destruct (forEachR_index_total F (Obj.keys F) ∅) as [idx Hbuild].
  { intros k Hk.
    destruct (readable_key _ _ _ Hread Hk) as [?|(nm & -> & _)]; eauto. }
  destruct (pass_stable idx packages F (Obj.keys F)
              {| newPkgs := F; hasChange := false |}) as (ms & Hall & Hms).
  { intros k Hk. by apply (settled_verdict packages). }
  exists ms. split; [done|].
  rewrite upgradeLock_unfold. cbv zeta. fold lockFile.
  rewrite Hload. fold (buildIndex F) in Hbuild. rewrite Hbuild.
  rewrite convergenceLoop_unfold.
  unfold run at 1. rewrite Hinstall.
  rewrite upgradeSelectedPackages_run, diffPass_run.
  unfold loaded at 1. simpl. rewrite Hkept. simpl. rewrite HF. simpl.
  rewrite Hall. simpl.
  unfold run. simpl. by rewrite Hcheck.
Qed.

(** The condition on the versions is needed: on a readable lockfile
    without it, the first pass of the run reverts an entry and rewrites
    the lockfile. *)
Lemma rerun_reverts_otherwise
    packages options (w : World) text F e1 fs1 :
  let lockFile := default "yarn.lock" (lock options) in
  let w1 := {| files := fs1; env := e1;
               trace := trace w ++ [Ran "jlpm install" (cwd options)] |} in
  files w !! lockFile = Some text →
  parseSyml text = Some F →
  exec "jlpm install" (cwd options) (env w) (files w) = Some (e1, fs1) →
  fs1 !! lockFile = Some text →
  readable packages F = true →
  ownVersionFirst packages F = false →
  ∃ idx ms final,
    buildIndex F = Ok idx ∧
    run "jlpm install" (cwd options) w = (Ok tt, w1) ∧
    existsb isDowngrade ms = true ∧
    upgradeSelectedPackages lockFile idx packages F w1
    = (Ok true,
       written lockFile (yarnLockHeader +:+ stringifySyml final) (say ms w1)).
Proof.
  intros lockFile w1 Htext HF Hinstall Hkept Hread Hone.
  destruct (forEachR_index_total F (Obj.keys F) ∅) as [idx Hbuild].
  { intros k Hk.
    destruct (readable_key _ _ _ Hread Hk) as [?|(nm & -> & _)]; eauto. }
  fold (buildIndex F) in Hbuild.
  destruct (pass_total_once idx packages F (Obj.keys F)
              {| newPkgs := F; hasChange := false |}
              (NoDup_keys F)) as (st & ms & Hall).
  { intros k Hk. by eapply readable_verdict. }
  destruct (unsettled_verdict packages F idx Hbuild Hread Hone)
    as (k & nm & od & c & o & Hk & Hv).
  destruct (pass_at _ _ _ _ _ _ _ k (NoDup_keys F) Hk Hall)
    as (v & Hv' & _ & Hlines).
  simpl in Hv'. rewrite Hv in Hv'. injection Hv' as <-.
  assert (existsb isDowngrade ms = true) as Hms.
  { apply (elem_of_existsb _ (Downgrade nm (version c) (version o)));
      [apply Hlines; left|done]. }
  exists idx, ms, (newPkgs st). split_and!; [done| |done|].
  - unfold run. by rewrite Hinstall.
  - rewrite upgradeSelectedPackages_run, diffPass_run.
    unfold loaded. simpl. rewrite Hkept. simpl. rewrite HF. simpl.
    rewrite Hall. rewrite (pass_change _ _ _ _ _ _ _ Hall). simpl.
    by rewrite Hms.
Qed.

End Properties.

(** ** The properties on the samples *)

Section OnSamples.
Import Demo Samples Samples2.

(** A run, from its result and the world it leaves. *)
Lemma pair_of {A B} (p : A * B) (a : A) : p.1 = a → p = (a, p.2).
Proof. destruct p. simpl. by intros ->. Defined.

Local Ltac evaluate := vm_compute; reflexivity.

(** The always-bumping resolver of C4: the loop installs six times, one
    more than the "at most 5 times" of the script's comment, each pass
    prints its downgrade, and the run ends with the immutable install
    failing. *)
Theorem always_bumping_resolver_is_run_six_times :
  let r := upgradeLock "pkg-a" options
             (world (demo_stringifySyml original) bumpsAlways) in
  r.1 = Fail (CommandFailed "jlpm install --immutable") ∧
  mutableInstalls (trace r.2) = 6 ∧
  length (List.filter isDowngrade (printedIn (trace r.2))) = 6.
Proof. split_and!; evaluate. Qed.

(** C3 fails where the range is empty and the original version is a
    prerelease: the selector of [foo@npm:] is the empty string, which
    semver takes for a valid range, and the check is false. *)
Lemma empty_range_rejects_prerelease :
  (selector <$> (parseDescriptor "foo@npm:" ≫= fun pd => parseRange (range pd))
   = Some EmptyString) ∧
  rangeAdmits (Some beta) "foo@npm:" = Ok false.
Proof. split; evaluate. Qed.

(** C5 fails on [broken]: the first resolution has no name; the call
    throws, nothing is printed, and the second entry, which the resolver
    had moved, is not visited. *)
Lemma malformed_resolution_stops_the_pass :
  let w := world (demo_stringifySyml broken) agrees in
  let r := upgradeSelectedPackages "yarn.lock" (indexOf original) "pkg-a"
             original w in
  loaded "yarn.lock" w = Ok broken ∧
  r.1 = Fail (InvalidDescriptor "@broken") ∧
  trace r.2 = [] ∧
  files r.2 !! "yarn.lock" = Some (demo_stringifySyml broken).
Proof. split_and!; evaluate. Qed.


(** C6 fails on [twice]: a first run on [single] returns with the
    lockfile [twice], which the resolver then leaves as it is and accepts;
    a second run on that state prints a downgrade in its first pass and
    rewrites the lockfile. *)
Lemma rerun_reverts_a_duplicate :
  let first := upgradeLock "foo" options
                 (world (demo_stringifySyml single) bringsBar) in
  let again := run "jlpm install" None (fresh first.2) in
  let second := upgradeLock "foo" options (fresh first.2) in
  first.1 = Ok tt ∧ lockOf first.2 = Some twice ∧
  again.1 = Ok tt ∧ lockOf again.2 = Some twice ∧
  (run "jlpm install --immutable" None again.2).1 = Ok tt ∧
  take 3 (trace second.2)
    = [Ran "jlpm install" None;
       Printed (Downgrade "bar" "1.5.0" "1.2.0");
       Printed (Ignoring "foo@npm:^1.0.0")] ∧
  (lockOf second.2 ≫= fun o => Obj.get o "bar@npm:^1.1.0")
    = Some (entry "1.2.0" "bar@npm:1.2.0").
Proof. split_and!; evaluate. Qed.

(** *** Instances of the theorems *)


Lemma out_of_pattern_entry_witness :
  let r := diffPass "yarn.lock" (indexOf original) "pkg-a" original afterBump in
  let kb := "pkg-b@npm:^2.0.0" in
  buildIndex original = Ok (indexOf original) ∧
  ∃ st ms,
    r = (Ok st, say ms afterBump) ∧
    keysNamed original "pkg-b" = [kb] ∧
    admits "2.0.0" kb ∧
    Obj.get (newPkgs st) kb = Some (entry "2.0.0" "pkg-b@npm:2.0.0") ∧
    hasChange st = true ∧
    Downgrade "pkg-b" "2.1.0" "2.0.0" ∈ ms.
Proof.
  intros r kb.
  assert (buildIndex original = Ok (indexOf original)) as Hb by evaluate.
  split; [exact Hb|].
  assert (∃ st, r.1 = Ok st) as [st Hst] by (eexists; evaluate).
  assert (admits "2.0.0" kb) as Hadm.
  { apply (allDescriptorsAdmit_true kb (entry "2.0.0" "pkg-b@npm:2.0.0")).
    evaluate. }
  assert (Obj.get original kb = Some (entry "2.0.0" "pkg-b@npm:2.0.0")) as Hkb
    by evaluate.
  destruct (out_of_pattern_entry_takes_first_admitting
              "yarn.lock" (indexOf original) "pkg-a" original
              afterBump r.2 st bumped kb
              (entry "2.1.0" "pkg-b@npm:2.1.0") "pkg-b" [kb]
              Hb (pair_of r _ Hst))
    as (ms & Hw & Hc & Hcase); try evaluate.
  exists st, ms.
  split; [rewrite <- Hw; exact (pair_of r _ Hst)|].
  split; [exact (eq_sym Hc)|]. split; [exact Hadm|].
  destruct Hcase as [(pre & od & post & o & Hsplit & _ & Ho & _ & Hres)
                    |(Hall & _)].
  - destruct pre as [|c pre]; simpl in Hsplit.
    + injection Hsplit as <- _. rewrite Hkb in Ho. injection Ho as <-.
      exact Hres.
    + injection Hsplit as _ Hnil. destruct pre; discriminate Hnil.
  - apply Forall_cons in Hall as [(oc & Hoc & Href) _].
    rewrite Hkb in Hoc. injection Hoc as <-.
    destruct (admits_not_refuses _ _ Hadm Href).
Defined.

Lemma rangeAdmits_iff_witness :
  ∃ b, rangeAdmits (Some (entry "2.0.0" "pkg-b@npm:2.0.0")) "pkg-b@npm:^2.0.0"
       = Ok b ∧
       (b = true ↔ truthy (validRange "^2.0.0") = false ∨
                   satisfies "2.0.0" "^2.0.0" = true).
Proof.
  assert (parseDescriptor (Str.trim "pkg-b@npm:^2.0.0")
          = Some {| scope := None; name := "pkg-b"; range := "npm:^2.0.0" |})
    as Hd by evaluate.
  assert (parseRange "npm:^2.0.0"
          = Some {| protocol := Some "npm:"; source := None;
                    selector := "^2.0.0"; params := None |})
    as Hr by evaluate.
  exact (proj1 (rangeAdmits_iff _ _ _ Hd Hr) (entry "2.0.0" "pkg-b@npm:2.0.0")).
Defined.

Lemma malformed_entry_aborts_witness :
  let w0 := world (demo_stringifySyml goodKey)
              {| pending := [demo_stringifySyml badKey]; settled := None |} in
  let w := (run "jlpm install" None w0).2 in
  let k := "pkg-b@npm:^2.0.0, @bad" in
  loaded "yarn.lock" w0 = Ok goodKey ∧
  loaded "yarn.lock" w = Ok badKey ∧
  breaksOn "2.0.0" k ∧
  ∃ err ms,
    upgradeSelectedPackages "yarn.lock" (indexOf goodKey) "pkg-a" goodKey w
    = (Fail err, say ms w) ∧
    upgradeLock "pkg-a" options w0 = (Fail err, say ms w) ∧
    ∀ m, m ∈ ms → lineKey m = Some k → False.
Proof.
  intros w0 w k.
  assert (loaded "yarn.lock" w0 = Ok goodKey) as Hl0 by evaluate.
  assert (loaded "yarn.lock" w = Ok badKey) as Hl by evaluate.
  assert (buildIndex goodKey = Ok (indexOf goodKey)) as Hb by evaluate.
  assert ((run "jlpm install" None w0).1 = Ok tt) as Hrun by evaluate.
  assert (breaksOn "2.0.0" k) as Hbr.
  { exists ["pkg-b@npm:^2.0.0"], " @bad", []. split_and!; [evaluate| |].
    - apply Forall_cons. split; [|apply Forall_nil_2].
      apply (rangeAdmits_true (entry "2.0.0" "pkg-b@npm:2.0.0")). evaluate.
    - left. evaluate. }
  split_and!; [exact Hl0|exact Hl|exact Hbr|].
  destruct (malformed_entry_aborts "yarn.lock" (indexOf goodKey) "pkg-a"
              goodKey w badKey k (entry "2.1.0" "pkg-b@npm:2.1.0") Hb Hl)
    as (err & visited & rest & st1 & ms & Hkeys & Hk & Hvis & Hup & _ & Hrun5).
  { evaluate. }
  { evaluate. }
  { right.
    exists "pkg-b", [], k, [], (entry "2.0.0" "pkg-b@npm:2.0.0").
    split_and!; [evaluate|evaluate|evaluate|apply Forall_nil_2|evaluate
                |exact Hbr]. }
  exists err, ms. split_and!; [exact Hup| |].
  - apply (Hrun5 options w0 eq_refl Hl0).
    apply reachesPass_first. exact (pair_of _ _ Hrun).
  - intros m Hm Hkey.
    rewrite forEach_decide in Hvis.
    destruct (decide_all (indexOf goodKey) "pkg-a" goodKey visited _)
      as [r ms'] eqn:Hall.
    assert (say ms' w = say ms w) as ->%say_inj by congruence.
    destruct (pass_lines _ _ _ _ _ _ _ _ Hall Hm)
      as (k0 & cur & v & Hk0 & _ & Hline).
    rewrite <- (verdictLines_key _ _ _ _ Hline Hkey) in Hk0.
    pose proof (NoDup_keys badKey) as Hnd. rewrite Hkeys in Hnd.
    apply NoDup_app in Hnd as (_ & Hnot & _). exact (Hnot _ Hk0 Hk).
Defined.

Lemma rerun_is_stable_witness :
  let w := world (demo_stringifySyml majors) agrees in
  readable "foo" majors = true ∧
  ownVersionFirst "foo" majors = true ∧
  ∃ ms, existsb isDowngrade ms = false ∧
        (upgradeLock "foo" options w).1 = Ok tt ∧
        trace (upgradeLock "foo" options w).2
        = (([Ran "jlpm install" None]) ++ (Printed <$> ms))
          ++ [Ran "jlpm install --immutable" None].
Proof.
  intros w.
  assert (readable "foo" majors = true) as Hr by evaluate.
  assert (ownVersionFirst "foo" majors = true) as Ho by evaluate.
  split_and!; [exact Hr|exact Ho|].
  assert (files w !! "yarn.lock" = Some (demo_stringifySyml majors))
    as Ht by evaluate.
  assert (parseSyml (demo_stringifySyml majors) = Some majors)
    as Hp by evaluate.
  assert (exec "jlpm install" None (env w) (files w) = Some (agrees, files w))
    as Hi by evaluate.
  assert (exec "jlpm install --immutable" None agrees (files w)
          = Some (agrees, files w)) as Hc by evaluate.
  destruct (rerun_is_stable "foo" options w (demo_stringifySyml majors)
              majors agrees (files w) agrees (files w) Ht Hp Hi Ht Hc Hr Ho)
    as (ms & Hms & Hrun).
  exists ms. rewrite Hrun. exact (conj Hms (conj eq_refl eq_refl)).
Defined.

Lemma metadata_keys_witness :
  let w := world (demo_stringifySyml withMetadata) agrees in
  let r := diffPass "yarn.lock" (indexOf original) "pkg-a" original w in
  Str.startsWith "__" "pkg-a@npm:^1.0.0" = false ∧
  ∃ st reloaded,
    r.1 = Ok st ∧ loaded "yarn.lock" w = Ok reloaded ∧
    Obj.get (newPkgs st) "__metadata" = Obj.get reloaded "__metadata".
Proof.
  intros w r.
  destruct (metadata_keys_pass_through withMetadata) as [Hidx _].
  destruct (metadata_keys_pass_through original) as [_ Hpass].
  split.
  - apply (Hidx (indexOf withMetadata) "pkg-a" ["pkg-a@npm:^1.0.0"]);
      [evaluate|evaluate|left].
  - assert (∃ st, r.1 = Ok st) as [st Hst] by (eexists; evaluate).
    destruct (Hpass "yarn.lock" (indexOf original) "pkg-a" w r.2 st
                (pair_of r _ Hst))
      as (reloaded & ms & Hl & _ & Hmeta & _).
    exists st, reloaded. split_and!; [exact Hst|exact Hl|].
    apply Hmeta. evaluate.
Defined.

Lemma new_package_witness :
  let w := world (demo_stringifySyml withNew) agrees in
  let r := diffPass "yarn.lock" (indexOf original) "pkg-a" original w in
  loaded "yarn.lock" w = Ok withNew ∧
  indexOf original !! "pkg-c" = None ∧
  ∃ st, r.1 = Ok st ∧
        Obj.get (newPkgs st) "pkg-c@npm:^3.0.0"
        = Some (entry "3.0.0" "pkg-c@npm:3.0.0").
Proof.
  intros w r.
  assert (loaded "yarn.lock" w = Ok withNew) as Hl by evaluate.
  assert (indexOf original !! "pkg-c" = None) as Hi by evaluate.
  assert (∃ st, r.1 = Ok st) as [st Hst] by (eexists; evaluate).
  split_and!; [exact Hl|exact Hi|]. exists st. split; [exact Hst|].
  apply (new_package_left_alone "yarn.lock" (indexOf original) "pkg-a"
           original w r.2 st withNew "pkg-c@npm:^3.0.0"
           (entry "3.0.0" "pkg-c@npm:3.0.0") "pkg-c" (pair_of r _ Hst) Hl);
    [evaluate|evaluate|evaluate|exact Hi].
Defined.

Lemma diff_keeps_keys_witness :
  let r := upgradeSelectedPackages "yarn.lock" (indexOf original) "pkg-a"
             original afterBump in
  r.1 = Ok true ∧
  ∃ reloaded final,
    loaded "yarn.lock" afterBump = Ok reloaded ∧
    Obj.keys final = Obj.keys reloaded ∧
    files r.2 = <["yarn.lock" := yarnLockHeader +:+ stringifySyml final]>
                  (files afterBump).
Proof.
  intros r.
  assert (r.1 = Ok true) as H by evaluate.
  split; [exact H|].
  destruct (diff_keeps_keys "yarn.lock" (indexOf original) "pkg-a" original
              afterBump r.2 true (pair_of r _ H))
    as (reloaded & final & Hl & _ & Hk & _ & Hw).
  exists reloaded, final. exact (conj Hl (conj Hk Hw)).
Defined.

End OnSamples.


(** ** Further properties of the script *)

Section IndexProperties.
Context `{X : Externals}.

(** An index that has been built has a name for every package key. *)
Lemma forEachR_index_named pkgs ks idx0 idx k :
  forEachR (indexEntry pkgs) ks idx0 = Ok idx → k ∈ ks →
  Str.startsWith "__" k = true ∨ is_Some (nameOf pkgs k).
Proof.
  revert idx0. induction ks as [|k0 rest IH]; intros idx0; simpl.
  { by intros _ ?%elem_of_nil. }
  destruct (indexEntry pkgs idx0 k0) as [idx1|] eqn:Hk0; simpl; [|done].
  intros Hrest [->|Hk]%elem_of_cons; [|by eapply IH].
  unfold indexEntry in Hk0. unfold nameOf.
  destruct (Str.startsWith "__" k0); [by left|right].
  destruct (Obj.get pkgs k0) as [e|]; simpl in *; [|done].
  destruct (extractNameFromDescriptor (resolution e)); simpl in *; [|done].
  by eexists.
Qed.

(** The only exception of [extractNameFromDescriptor]. *)
Lemma extractName_error str e :
  extractNameFromDescriptor str = Fail e → ∃ d, e = InvalidDescriptor d.
Proof.
  unfold extractNameFromDescriptor.
  destruct (parseDescriptor _); simpl; [done|]. intros [= <-]. by eexists.
Qed.

Lemma forEachR_index_error pkgs ks idx0 e :
  forEachR (indexEntry pkgs) ks idx0 = Fail e →
  (∀ k, k ∈ ks → is_Some (Obj.get pkgs k)) →
  ∃ d, e = InvalidDescriptor d.
Proof.
  revert idx0. induction ks as [|k rest IH]; intros idx0; simpl; [done|].
  intros Hf Hks.
  destruct (indexEntry pkgs idx0 k) as [idx1|e1] eqn:Hk; simpl in Hf.
  - eapply IH; [done|]. intros k' ?. apply Hks. by right.
  - injection Hf as <-. unfold indexEntry in Hk.
    destruct (Str.startsWith "__" k); [done|].
    destruct (Hks k) as [o Ho]; [left|]. rewrite Ho in Hk. simpl in Hk.
    destruct (extractNameFromDescriptor (resolution o)) eqn:Hn; simpl in Hk;
      [done|].
    injection Hk as <-. by eapply extractName_error.
Qed.

Lemma NoDup_List_filter {A} (f : A → bool) (l : list A) :
  NoDup l → NoDup (List.filter f l).
Proof.
  induction 1 as [|x l Hx Hl IH]; simpl; [constructor|].
  destruct (f x); [|done]. constructor; [|done].
  rewrite list_elem_of_In, filter_In, <- list_elem_of_In. by intros [? _].
Qed.

(** X1.  The index [upgradeLock] builds has, under each canonical name,
    the package keys of the original lockfile whose resolution has that
    name, in the order of the lockfile, and has no bucket for a name no key
    has. *)
Theorem index_buckets pkgs idx :
  buildIndex pkgs = Ok idx →
  ∀ nm, idx !! nm = match keysNamed pkgs nm with
                    | [] => None
                    | k :: ks => Some (k :: ks)
                    end.
Proof.
  intros Hidx nm. unfold buildIndex in Hidx.
  rewrite (forEachR_index _ _ _ _ nm Hidx), lookup_empty.
  unfold keysNamed. by destruct (List.filter (named pkgs nm) (Obj.keys pkgs)).
Qed.

(** X2.  In the index, no bucket is empty and none lists a key twice; a
    package key of the original lockfile is in the bucket of the name of
    its resolution and in no other bucket. *)
Theorem index_partition pkgs idx :
  buildIndex pkgs = Ok idx →
  (∀ nm cands, idx !! nm = Some cands → cands ≠ [] ∧ NoDup cands) ∧
  (∀ k o, Obj.get pkgs k = Some o → Str.startsWith "__" k = false →
     ∃ nm cands,
       extractNameFromDescriptor (resolution o) = Ok nm ∧
       idx !! nm = Some cands ∧ k ∈ cands ∧
       ∀ nm' cands', idx !! nm' = Some cands' → k ∈ cands' → nm' = nm).
Proof.
  intros Hidx. split.
  - intros nm cands Hnm.
    pose proof (buildIndex_lookup _ _ _ _ Hidx Hnm) as ->.
    split.
    + unfold buildIndex in Hidx.
      rewrite (forEachR_index _ _ _ _ nm Hidx), lookup_empty in Hnm.
      unfold keysNamed.
      by destruct (List.filter (named pkgs nm) (Obj.keys pkgs)).
    + unfold keysNamed. apply NoDup_List_filter, NoDup_keys.
  - intros k o Hk Hmeta.
    assert (k ∈ Obj.keys pkgs) as Hin by (apply elem_of_keys; by rewrite Hk).
    destruct (forEachR_index_named _ _ _ _ _ Hidx Hin) as [?|[nm Hnm]];
      [congruence|].
    pose proof Hnm as (o' & Ho' & Hn)%nameOf_Some.
    assert (o' = o) as -> by congruence.
    destruct (buildIndex_complete _ _ _ _ _ Hidx Hk Hmeta Hn) as (cands & Hc & Hkc).
    exists nm, cands. split_and!; [done..|].
    intros nm' cands' Hc' Hk'.
    rewrite (buildIndex_lookup _ _ _ _ Hidx Hc') in Hk'.
    apply keysNamed_elem in Hk' as (_ & o'' & Ho'' & Hn'). congruence.
Qed.

(** X3.  [upgradeLock] throws before it runs the package manager, and
    leaves the world as it is, when the lockfile is missing, when it does not
    parse, and when the resolution of one of its package entries has no
    name. *)
Theorem original_must_be_readable packages options (w : World) :
  let lockFile := default "yarn.lock" (lock options) in
  (files w !! lockFile = None →
   upgradeLock packages options w = (Fail (FileError lockFile), w)) ∧
  (∀ text, files w !! lockFile = Some text → parseSyml text = None →
           upgradeLock packages options w = (Fail ParseError, w)) ∧
  (∀ pkgs k e err,
     loaded lockFile w = Ok pkgs →
     Obj.get pkgs k = Some e → Str.startsWith "__" k = false →
     extractNameFromDescriptor (resolution e) = Fail err →
     ∃ d, upgradeLock packages options w = (Fail (InvalidDescriptor d), w)).
Proof.
  intros lockFile. split_and!.
  - intros Hnone. rewrite upgradeLock_unfold. cbv zeta. fold lockFile.
    unfold loaded. by rewrite Hnone.
  - intros text Htext Hparse. rewrite upgradeLock_unfold. cbv zeta.
    fold lockFile. unfold loaded. rewrite Htext. simpl. by rewrite Hparse.
  - intros pkgs k e err Hload Hk Hmeta Herr.
    rewrite upgradeLock_unfold. cbv zeta. fold lockFile. rewrite Hload.
    destruct (buildIndex pkgs) as [idx|e'] eqn:Hidx.
    + assert (k ∈ Obj.keys pkgs) as Hin by (apply elem_of_keys; by rewrite Hk).
      destruct (forEachR_index_named _ _ _ _ _ Hidx Hin)
        as [?|[nm (o & Ho & Hn)%nameOf_Some]]; congruence.
    + destruct (forEachR_index_error _ _ _ _ Hidx) as [d ->]; [|by exists d].
      intros k' ?. by apply elem_of_keys.
Qed.

End IndexProperties.

Section PassProperties.
Context `{X : Externals}.

(** X5.  An entry of the reloaded lockfile whose name is indexed and
    matches the pattern is after the pass what the resolver made of it,
    whatever its version and whatever the original entries of that name are;
    "Ignoring package" is printed for its key and no downgrade of that
    name. *)
Theorem in_pattern_entry_is_ignored
    lockFile idx packages pkgs (w w' : World) st reloaded k e nm cands :
  diffPass lockFile idx packages pkgs w = (Ok st, w') →
  loaded lockFile w = Ok reloaded →
  Obj.get reloaded k = Some e →
  Str.startsWith "__" k = false →
  extractNameFromDescriptor (resolution e) = Ok nm →
  idx !! nm = Some cands →
  isMatch nm packages = Some true →
  Obj.get (newPkgs st) k = Some e ∧
  ∃ ms, w' = say ms w ∧ Ignoring k ∈ ms ∧
        ∀ from to, Downgrade nm from to ∉ ms.
Proof.
  intros Hpass Hload Hk Hmeta Hnm Hidx Hin.
  rewrite diffPass_run, Hload in Hpass.
  destruct (decide_all idx packages pkgs (Obj.keys reloaded) _)
    as [r ms] eqn:Hall.
  injection Hpass as -> <-.
  destruct (pass_at _ _ _ _ _ _ _ k (NoDup_keys reloaded)
              (proj2 (elem_of_keys reloaded k) (mk_is_Some _ _ Hk)) Hall)
    as (v & Hv & Hget & Hlines).
  simpl in Hv, Hget. rewrite Hk in Hv, Hget.
  unfold decide_entry in Hv. rewrite Hmeta in Hv. simpl in Hv.
  rewrite Hnm in Hv. simpl in Hv. rewrite Hidx, Hin in Hv. injection Hv as <-.
  split; [done|]. exists ms. split_and!; [done|apply Hlines; left|].
  intros from to Hd.
  destruct (pass_downgrade _ _ _ _ _ _ _ _ _ _ Hall Hd) as [? _]. congruence.
Qed.

(** *** The exceptions of the candidate loop *)





(** X7.  The loop of [upgradeSelectedPackages] over the keys of the
    reloaded lockfile runs to its end, having only printed lines, with the
    index built from the original lockfile, when the lockfile can be read
    and parsed, every resolution of a package entry of it has a name, the
    matcher answers for these names, and the descriptors in the keys of the
    entries out of the pattern parse.  What is left of the function is the
    write of the lockfile. *)
Theorem diff_loop_completes lockFile idx packages pkgs (w : World) reloaded :
  buildIndex pkgs = Ok idx →
  loaded lockFile w = Ok reloaded →
  readable packages reloaded = true →
  ∃ st ms,
    diffPass lockFile idx packages pkgs w = (Ok st, say ms w) ∧
    forEach (diffEntry idx packages pkgs) (Obj.keys reloaded)
            {| newPkgs := reloaded; hasChange := false |} w
    = (Ok st, say ms w).
Proof.
  intros Hbuild Hload Hread.
  rewrite diffPass_run, Hload, forEach_decide.
  destruct (pass_total_once idx packages pkgs (Obj.keys reloaded)
              {| newPkgs := reloaded; hasChange := false |}
              (NoDup_keys reloaded)) as (st & ms & ->).
  { intros k Hk. by eapply readable_verdict. }
  by exists st, ms.
Qed.

End PassProperties.

Section RevertProperties.
Context `{X : Externals}.

(** The entry a search returns has the name of the bucket searched. *)
Lemma firstAdmitting_name pkgs idx nm cands k od o :
  buildIndex pkgs = Ok idx → idx !! nm = Some cands →
  firstAdmitting pkgs k cands = Ok (Some (od, o)) →
  od ∈ cands ∧ Obj.get pkgs od = Some o ∧
  extractNameFromDescriptor (resolution o) = Ok nm.
Proof.
  intros Hbuild Hidx (pre & post & Hc & _ & _ & Ho)%firstAdmitting_Some.
  assert (od ∈ cands) as Hin by (rewrite Hc; apply elem_of_app; right; left).
  split_and!; [done..|].
  rewrite (buildIndex_lookup _ _ _ _ Hbuild Hidx) in Hin.
  apply keysNamed_elem in Hin as (_ & o' & Ho' & Hnm). congruence.
Qed.

(** X12.  A pass keeps the canonical name under every key: the original
    entry a revert puts under a key has the name of the entry it
    replaces. *)
Theorem pass_keeps_names
    lockFile idx packages pkgs (w w' : World) st reloaded :
  buildIndex pkgs = Ok idx →
  diffPass lockFile idx packages pkgs w = (Ok st, w') →
  loaded lockFile w = Ok reloaded →
  ∀ k, nameOf (newPkgs st) k = nameOf reloaded k.
Proof.
  intros Hbuild Hpass Hload k.
  rewrite diffPass_run, Hload in Hpass.
  destruct (decide_all idx packages pkgs (Obj.keys reloaded) _)
    as [r ms] eqn:Hall.
  injection Hpass as -> <-.
  destruct (pass_get _ _ _ _ _ _ _ k Hall)
    as [Hsame|(cur & nm & od & c & o & Hk & Hv & Hget & _)].
  { unfold nameOf. by rewrite Hsame. }
  destruct (pass_at _ _ _ _ _ _ _ k (NoDup_keys reloaded) Hk Hall)
    as (v & Hv' & Hget' & _).
  simpl in Hv', Hget'. apply decide_entry_means in Hv'.
  destruct v; simpl in Hget'; unfold nameOf; try (by rewrite Hget').
  destruct Hv' as (_ & cands & Hcur & Hnm & Hidx & _ & Hf & _).
  destruct (firstAdmitting_name _ _ _ _ _ _ _ Hbuild Hidx Hf) as (_ & _ & Hno).
  rewrite Hget', Hcur. simpl. by rewrite Hno, Hnm.
Qed.

(** X14.  A downgrade that a pass prints goes from the version the
    resolver chose to a different version, which is the version of an
    original entry listed in the bucket of the package's name. *)
Theorem downgrade_goes_to_an_original_version
    lockFile idx packages pkgs (w w' : World) st ms nm from to :
  diffPass lockFile idx packages pkgs w = (Ok st, w') →
  trace w' = trace w ++ (Printed <$> ms) →
  Downgrade nm from to ∈ ms →
  from ≠ to ∧
  ∃ cands od o,
    idx !! nm = Some cands ∧ od ∈ cands ∧
    Obj.get pkgs od = Some o ∧ version o = to.
Proof.
  intros Hpass Hw Hd. rewrite diffPass_run in Hpass.
  destruct (loaded lockFile w) as [reloaded|]; [|done].
  destruct (decide_all idx packages pkgs (Obj.keys reloaded) _)
    as [r ms'] eqn:Hall.
  injection Hpass as -> <-.
  assert (ms' = ms) as ->.
  { unfold say in Hw. simpl in Hw.
    apply app_inv_head in Hw. revert Hw. clear.
    revert ms. induction ms' as [|m ms' IH]; intros [|m' ms]; simpl; try done.
    intros [= -> ?]. f_equal. by apply IH. }
  destruct (pass_lines _ _ _ _ _ _ _ _ Hall Hd) as (k & cur & v & _ & Hv & Hl).
  apply decide_entry_means in Hv.
  destruct v; simpl in Hl;
    repeat match goal with
           | H : _ ∈ [] |- _ => by apply elem_of_nil in H
           | H : _ ∈ [_] |- _ => apply list_elem_of_singleton in H
           end; try done.
  injection Hl as -> -> ->.
  destruct Hv as (_ & cands & _ & _ & Hidx & _ & Hf & Hne).
  split; [congruence|].
  apply firstAdmitting_Some in Hf as (pre & post & -> & _ & _ & Ho).
  exists (pre ++ origDescriptor :: post), origDescriptor, o.
  split_and!; [done| |done..]. apply elem_of_app. right. left.
Qed.

(** After a pass, the verdict on every key is no revert. *)
Lemma settled_after_pass idx packages pkgs reloaded st ms k :
  buildIndex pkgs = Ok idx →
  decide_all idx packages pkgs (Obj.keys reloaded)
             {| newPkgs := reloaded; hasChange := false |} = (Ok st, ms) →
  k ∈ Obj.keys reloaded →
  ∃ v, decide_entry idx packages pkgs k (Obj.get (newPkgs st) k) = Ok v ∧
       existsb isDowngrade (verdictLines k v) = false.
Proof.
  intros Hbuild Hall Hk.
  destruct (pass_at _ _ _ _ _ _ _ k (NoDup_keys reloaded) Hk Hall)
    as (v & Hv & Hget & _).
  simpl in Hv, Hget. rewrite Hget.
  destruct v; simpl; try (by exists Skipped + exists Added + exists InScope
                          + (eexists (Unmatched _)) + (eexists (Unchanged _ _))).
  apply decide_entry_means in Hv
    as (Hmeta & cands & Hcur & Hnm & Hidx & Hout & Hf & Hne).
  destruct (firstAdmitting_name _ _ _ _ _ _ _ Hbuild Hidx Hf) as (_ & _ & Hno).
  exists (Unchanged nm origDescriptor). split; [|done].
  unfold decide_entry. rewrite Hmeta. simpl. rewrite Hno. simpl.
  rewrite Hidx, Hout. simpl. rewrite Hf. simpl.
  by rewrite String.eqb_refl.
Qed.

(** X8.  A pass over the mapping that a pass produced reverts nothing:
    when a lockfile parses to the mapping a pass ended with,
    [upgradeSelectedPackages] on it, with the same index and pattern, prints
    no downgrade, writes nothing and returns [false]. *)
Theorem second_pass_changes_nothing
    lockFile idx packages pkgs (w w1 w2 : World) st :
  buildIndex pkgs = Ok idx →
  diffPass lockFile idx packages pkgs w = (Ok st, w1) →
  loaded lockFile w2 = Ok (newPkgs st) →
  ∃ ms,
    existsb isDowngrade ms = false ∧
    upgradeSelectedPackages lockFile idx packages pkgs w2 = (Ok false, say ms w2).
Proof.
  intros Hbuild Hpass Hload.
  rewrite diffPass_run in Hpass.
  destruct (loaded lockFile w) as [reloaded|]; [|done].
  destruct (decide_all idx packages pkgs (Obj.keys reloaded) _)
    as [r ms0] eqn:Hall.
  injection Hpass as -> <-.
  pose proof (pass_fst _ _ _ _ _ _ _ Hall) as Hfst. simpl in Hfst.
  destruct (pass_stable idx packages pkgs (Obj.keys (newPkgs st))
              {| newPkgs := newPkgs st; hasChange := false |})
    as (ms & Hagain & Hms).
  { intros k Hk. simpl. rewrite (keys_fst _ _ Hfst) in Hk.
    by eapply settled_after_pass. }
  exists ms. split; [done|].
  by rewrite upgradeSelectedPackages_run, diffPass_run, Hload, Hagain.
Qed.

(** A line of a pass comes from the verdict on a key of the reloaded
    lockfile, which also says what is under that key afterwards. *)
Lemma pass_line_key idx packages pkgs ks st st' ms m :
  NoDup ks →
  decide_all idx packages pkgs ks st = (Ok st', ms) → m ∈ ms →
  ∃ k v,
    k ∈ ks ∧
    decide_entry idx packages pkgs k (Obj.get (newPkgs st) k) = Ok v ∧
    m ∈ verdictLines k v ∧
    Obj.get (newPkgs st') k = entryAfter v (Obj.get (newPkgs st) k).
Proof.
  revert st ms. induction ks as [|k0 rest IH]; intros st ms Hnd.
  { by intros [= <- <-] ?%elem_of_nil. }
  apply NoDup_cons in Hnd as [Hk0 Hnd].
  intros (v0 & ms' & Hv0 & Hrest & ->)%pass_cons [Hm|Hm]%elem_of_app.
  - exists k0, v0. split_and!; [left|done|done|].
    by rewrite (pass_other _ _ _ _ _ _ _ _ Hrest Hk0), applyVerdict_at.
  - destruct (IH _ _ Hnd Hrest Hm) as (k & v & Hk & Hv & Hl & Hget).
    assert (k ≠ k0) as Hne by (by intros ->).
    rewrite applyVerdict_other in Hv, Hget by done.
    exists k, v. split_and!; [by right|done..].
Qed.

(** X13.  The flag of a pass is exact: [hasChange] is true exactly when
    under some key the mapping of the pass has an entry whose version
    differs from the version the reloaded lockfile has there. *)
Theorem change_flag_is_exact
    lockFile idx packages pkgs (w w' : World) st reloaded :
  diffPass lockFile idx packages pkgs w = (Ok st, w') →
  loaded lockFile w = Ok reloaded →
  hasChange st = true ↔
  ∃ k e o,
    Obj.get reloaded k = Some e ∧ Obj.get (newPkgs st) k = Some o ∧
    version o ≠ version e.
Proof.
  intros Hpass Hload. rewrite diffPass_run, Hload in Hpass.
  destruct (decide_all idx packages pkgs (Obj.keys reloaded) _)
    as [r ms] eqn:Hall.
  injection Hpass as -> <-.
  pose proof (pass_change _ _ _ _ _ _ _ Hall) as Hch. simpl in Hch.
  split.
  - rewrite Hch. intros (m & Hm & Hd)%existsb_exists.
    apply list_elem_of_In in Hm.
    destruct (pass_line_key _ _ _ _ _ _ _ _ (NoDup_keys reloaded) Hall Hm)
      as (k & v & _ & Hv & Hl & Hget).
    simpl in Hv, Hget. apply decide_entry_means in Hv.
    destruct v; simpl in Hl;
      repeat match goal with
             | H : _ ∈ [] |- _ => by apply elem_of_nil in H
             | H : _ ∈ [_] |- _ => apply list_elem_of_singleton in H as ->
             end; try done.
    destruct Hv as (_ & cands & Hcur & _ & _ & _ & _ & Hne).
    exists k, cur, o. by rewrite <- Hcur.
  - intros (k & e & o & He & Ho & Hne).
    destruct (hasChange st) eqn:Hflag; [done|].
    rewrite (pass_quiet _ _ _ _ _ _ _ Hall) in Ho; [|by symmetry].
    simpl in Ho. congruence.
Qed.

(** X15.  The check of a key stops at the first descriptor the candidate
    does not admit: the descriptors after it are not parsed, so that a
    malformed one among them does not throw. *)
Theorem descriptors_after_a_rejected_one_are_not_parsed
    k origPkg ds1 d ds2 :
  Str.split "," k = ds1 ++ d :: ds2 →
  Forall (fun d' => rangeAdmits origPkg d' = Ok true) ds1 →
  rangeAdmits origPkg d = Ok false →
  allDescriptorsAdmit k origPkg = Ok false.
Proof.
  intros Hs Hds1 Hd. unfold allDescriptorsAdmit. rewrite Hs. clear Hs.
  induction Hds1 as [|d' ds1 Hd' _ IH]; simpl.
  - by rewrite Hd.
  - by rewrite Hd'.
Qed.

End RevertProperties.

Section LoopProperties.
Context `{X : Externals}.

Lemma writesIn_app t1 t2 : writesIn (t1 ++ t2) = writesIn t1 + writesIn t2.
Proof. unfold writesIn. by rewrite List.filter_app, length_app. Qed.

Lemma writesIn_printed ms : writesIn (Printed <$> ms) = 0.
Proof. by induction ms. Qed.

Lemma loopEvent_printed lockFile dir ms :
  Forall (loopEvent lockFile dir) (Printed <$> ms).
Proof. induction ms; by constructor. Qed.

(** What one iteration of the loop adds to the trace: one install, lines,
    and at most one write. *)
Lemma iteration_events lockFile idx packages pkgs dir (w w1 w2 : World) r1 r2 :
  run "jlpm install" dir w = (r1, w1) →
  upgradeSelectedPackages lockFile idx packages pkgs w1 = (r2, w2) →
  ∃ evs, trace w2 = trace w ++ evs ∧
         Forall (loopEvent lockFile dir) evs ∧
         mutableInstalls evs = 1 ∧ writesIn evs ≤ 1 ∧
         (r2 = Ok true → writesIn evs = 1).
Proof.
  intros Hrun%run_trace. rewrite upgradeSelectedPackages_run, diffPass_run.
  assert (∀ ms, ∃ evs,
            trace (say ms w1) = trace w ++ evs ∧
            Forall (loopEvent lockFile dir) evs ∧
            mutableInstalls evs = 1 ∧ writesIn evs = 0) as Hsay.
  { intros ms. exists ([Ran "jlpm install" dir] ++ (Printed <$> ms)).
    simpl. rewrite Hrun, <- app_assoc. split_and!; [done| | |].
    - constructor; [done|apply loopEvent_printed].
    - change (mutableInstalls ([Ran "jlpm install" dir] ++ (Printed <$> ms)) = 1).
      by rewrite mutableInstalls_app, mutableInstalls_printed.
    - change (writesIn ([Ran "jlpm install" dir] ++ (Printed <$> ms)) = 0).
      by rewrite writesIn_app, writesIn_printed. }
  destruct (loaded lockFile w1) as [reloaded|e].
  2: { intros [= <- <-]. destruct (Hsay []) as (evs & Ht & ? & ? & ?).
       rewrite say_nil in Ht. exists evs. split_and!; [done..|lia|done]. }
  destruct (decide_all idx packages pkgs (Obj.keys reloaded) _) as [r0 ms].
  destruct (Hsay ms) as (evs & Ht & Hev & Hi & Hw).
  destruct r0 as [st|e]; [destruct (hasChange st)|]; intros [= <- <-];
    [|exists evs; split_and!; [done..|lia|done]..].
  eexists (evs ++ [Wrote lockFile _]). unfold written. cbn [trace].
  rewrite Ht, <- app_assoc.
  assert (writesIn (evs ++ [Wrote lockFile
            (yarnLockHeader +:+ stringifySyml (newPkgs st))]) = 1) as Hone.
  { rewrite writesIn_app, Hw. reflexivity. }
  split_and!; [done| | |lia|done].
  - apply Forall_app. split; [done|]. constructor; [|constructor].
    split; [done|by eexists].
  - rewrite mutableInstalls_app, Hi. unfold mutableInstalls. simpl. lia.
Qed.

Lemma convergenceLoop_events n lockFile idx packages pkgs dir (w w' : World) r :
  convergenceLoop n lockFile idx packages pkgs dir w = (r, w') →
  ∃ evs, trace w' = trace w ++ evs ∧
         Forall (loopEvent lockFile dir) evs ∧
         1 ≤ mutableInstalls evs ≤ S n ∧
         writesIn evs ≤ mutableInstalls evs ≤ S (writesIn evs).
Proof.
  revert w. induction n as [|n IH]; intros w; rewrite convergenceLoop_unfold;
    destruct (run "jlpm install" dir w) as [r1 w1] eqn:Hrun.
  all: destruct r1 as [[]|e];
    [|intros [= <- <-]; apply run_trace in Hrun;
      exists [Ran "jlpm install" dir];
      split_and!; [done|by repeat constructor|
                   unfold mutableInstalls, writesIn; simpl; lia..]].
  all: destruct (upgradeSelectedPackages lockFile idx packages pkgs w1)
         as [r2 w2] eqn:Hpass;
       destruct (iteration_events _ _ _ _ _ _ _ _ _ _ Hrun Hpass)
         as (evs & Ht & Hev & Hi & Hw & Hone).
  - destruct r2 as [[|]|e]; intros [= <- <-]; exists evs;
      (split_and!; [done|done|lia..]).
  - destruct r2 as [[|]|e];
      [|intros [= <- <-]; exists evs; (split_and!; [done|done|lia..])..].
    intros (evs' & Ht' & Hev' & Hi' & Hw')%IH.
    specialize (Hone eq_refl).
    exists (evs ++ evs'). rewrite Ht', Ht, <- app_assoc.
    rewrite mutableInstalls_app, writesIn_app.
    split_and!; [done|by apply Forall_app|lia..].
Qed.

(** *** The shape of the trace *)

Lemma writesBetween_single (it : list Message * option Lock) :
  writesBetween [it].
Proof.
  intros pre it' post Heq Hpost. destruct pre as [|a pre]; simpl in Heq.
  - injection Heq as _ <-. done.
  - injection Heq as _ Heq. by destruct pre.
Qed.

Lemma writesBetween_cons (it : list Message * option Lock) its :
  is_Some it.2 → writesBetween its → writesBetween (it :: its).
Proof.
  intros Hit Hits pre it' post Heq Hpost. destruct pre as [|a pre]; simpl in Heq.
  - by injection Heq as <- _.
  - injection Heq as _ Heq. by eapply Hits.
Qed.

(** What a call of [upgradeSelectedPackages] shows: lines, then the write
    if it returns true. *)
Lemma upgradeSelectedPackages_events
    lockFile idx packages pkgs (w w' : World) r :
  upgradeSelectedPackages lockFile idx packages pkgs w = (r, w') →
  ∃ it : list Message * option Lock,
    trace w' = trace w ++ (Printed <$> it.1) ++
               match it.2 with
               | Some final =>
                   [Wrote lockFile (yarnLockHeader +:+ stringifySyml final)]
               | None => []
               end ∧
    (r = Ok true ↔ is_Some it.2).
Proof.
  rewrite upgradeSelectedPackages_run, diffPass_run.
  destruct (loaded lockFile w) as [reloaded|e].
  2: { intros [= <- <-]. exists ([], None). simpl. rewrite app_nil_r.
       split; [done|]. split; [done|by intros [? ?]]. }
  destruct (decide_all idx packages pkgs (Obj.keys reloaded) _) as [r0 ms].
  destruct r0 as [st|e]; [destruct (hasChange st)|]; intros [= <- <-].
  - exists (ms, Some (newPkgs st)). simpl. rewrite <- app_assoc.
    split; [done|]. split; [by eexists|done].
  - exists (ms, None). simpl. rewrite app_nil_r.
    split; [done|]. split; [done|by intros [? ?]].
  - exists (ms, None). simpl. rewrite app_nil_r.
    split; [done|]. split; [done|by intros [? ?]].
Qed.

Lemma convergenceLoop_iterations
    n lockFile idx packages pkgs dir (w w' : World) r :
  convergenceLoop n lockFile idx packages pkgs dir w = (r, w') →
  ∃ its,
    trace w' = trace w ++ concat (iterationEvents lockFile dir <$> its) ∧
    1 ≤ length its ≤ S n ∧ writesBetween its.
Proof.
  revert w. induction n as [|n IH]; intros w; rewrite convergenceLoop_unfold;
    destruct (run "jlpm install" dir w) as [r1 w1] eqn:Hrun;
    apply run_trace in Hrun.
  all: destruct r1 as [[]|e];
    [|intros [= <- <-]; exists [([], None)]; simpl;
      split_and!; [done|lia|lia|apply writesBetween_single]].
  all: destruct (upgradeSelectedPackages lockFile idx packages pkgs w1)
         as [r2 w2] eqn:Hpass;
       destruct (upgradeSelectedPackages_events _ _ _ _ _ _ _ Hpass)
         as (it & Ht & Hwr).
  all: assert (trace w2 = trace w ++ concat (iterationEvents lockFile dir <$> [it]))
         as Hone
         by (rewrite Ht, Hrun, <- app_assoc; simpl; by rewrite app_nil_r).
  - destruct r2 as [[|]|e]; intros [= <- <-]; exists [it];
      (split_and!; [done|simpl; lia|simpl; lia|apply writesBetween_single]).
  - destruct r2 as [[|]|e];
      [|intros [= <- <-]; exists [it];
        (split_and!; [done|simpl; lia|simpl; lia|apply writesBetween_single])..].
    intros (its & Ht' & Hlen & Hbetween)%IH.
    exists (it :: its). split_and!.
    + rewrite Ht', Ht, Hrun, <- !app_assoc. simpl.
      by rewrite <- !app_assoc.
    + simpl. lia.
    + simpl. lia.
    + apply writesBetween_cons; [by apply Hwr|done].
Qed.

(** X10.  The trace of a run of [upgradeLock] is a sequence of at most six
    iterations, each of them a mutable install, the lines of the pass, and
    then at most one write, to the lockfile, of the header followed by a
    serialised mapping; every iteration but the last ends with that write;
    after the iterations comes the immutable install or nothing, and the
    immutable install if the run returns.  So the script writes no other
    file, writes at most once after each install, and every install but
    the first comes directly after a write. *)
Theorem script_writes_only_the_lockfile packages options (w w' : World) r :
  let lockFile := default "yarn.lock" (lock options) in
  upgradeLock packages options w = (r, w') →
  ∃ its tail,
    trace w' = trace w
               ++ concat (iterationEvents lockFile (cwd options) <$> its)
               ++ tail ∧
    length its ≤ 6 ∧
    writesBetween its ∧
    (tail = [] ∨
     its ≠ [] ∧ tail = [Ran "jlpm install --immutable" (cwd options)]) ∧
    (r = Ok tt → tail = [Ran "jlpm install --immutable" (cwd options)]).
Proof.
  intros lockFile. rewrite upgradeLock_unfold. cbv zeta. fold lockFile.
  assert (∃ its tail : list _,
            trace w = trace w
                      ++ concat (iterationEvents lockFile (cwd options) <$> its)
                      ++ tail ∧
            length its ≤ 6 ∧ writesBetween its ∧
            (tail = [] ∨
             its ≠ [] ∧
             tail = [Ran "jlpm install --immutable" (cwd options)]))
    as (its0 & tail0 & H1 & H2 & H3 & H4).
  { exists [], []. simpl. rewrite app_nil_r.
    split_and!; [done|lia| |by left].
    intros pre it post Heq. by destruct pre. }
  destruct (loaded lockFile w) as [pkgs|e].
  2: { intros [= <- <-]. exists its0, tail0. by split_and!. }
  destruct (buildIndex pkgs) as [idx|e].
  2: { intros [= <- <-]. exists its0, tail0. by split_and!. }
  destruct (convergenceLoop 5 lockFile idx packages pkgs (cwd options) w)
    as [r5 wl] eqn:Hloop.
  apply convergenceLoop_iterations in Hloop as (its & Ht & Hlen & Hbetween).
  destruct r5 as [[]|e].
  2: { intros [= <- <-]. exists its, []. rewrite app_nil_r.
       split_and!; [done|lia|done|by left|done]. }
  intros Hcheck. apply run_trace in Hcheck as Htrace.
  exists its, [Ran "jlpm install --immutable" (cwd options)].
  rewrite Htrace, Ht, <- app_assoc.
  split_and!; [done|lia|done| |done].
  right. split; [|done]. intros ->. simpl in Hlen. lia.
Qed.

Lemma last_is_unique {A} (P : A → Prop) (l pre post : list A) (x ev : A) :
  Forall P l → ¬ P ev → pre ++ ev :: post = l ++ [x] → post = [].
Proof.
  revert pre. induction l as [|a l IH]; intros pre Hl Hev; simpl.
  - destruct pre as [|b pre]; simpl; [by intros [= _ ->]|].
    intros [= _ Hpre]. by destruct pre.
  - apply Forall_cons in Hl as [Ha Hl].
    destruct pre as [|b pre]; simpl; [intros [= -> _]; done|].
    intros [= _ Hpre]. by eapply IH.
Qed.

(** X4.  The immutable install is run at most once in a run of
    [upgradeLock], and nothing happens after it; a run that returns has run
    it last, after at least one mutable install. *)
Theorem immutable_install_ends_the_run packages options (w w' : World) r :
  upgradeLock packages options w = (r, w') →
  ∃ evs,
    trace w' = trace w ++ evs ∧
    (∀ pre ev post,
       evs = pre ++ ev :: post → isImmutableInstall ev = true → post = []) ∧
    (r = Ok tt →
     ∃ pre, evs = pre ++ [Ran "jlpm install --immutable" (cwd options)] ∧
            1 ≤ mutableInstalls pre).
Proof.
  rewrite upgradeLock_unfold. cbv zeta.
  assert (∃ evs, trace w = trace w ++ evs ∧
            (∀ pre ev post,
               evs = pre ++ ev :: post → isImmutableInstall ev = true →
               post = []) ∧ evs = []) as Hnil.
  { exists []. rewrite app_nil_r. split_and!; [done| |done].
    by intros [|??] ?? ?. }
  destruct (loaded _ w) as [pkgs|e].
  2: { intros [= <- <-]. destruct Hnil as (evs & ? & ? & ?). exists evs.
       by split_and!. }
  destruct (buildIndex pkgs) as [idx|e].
  2: { intros [= <- <-]. destruct Hnil as (evs & ? & ? & ?). exists evs.
       by split_and!. }
  destruct (convergenceLoop 5 (default "yarn.lock" (lock options)) idx packages
              pkgs (cwd options) w) as [r5 wl] eqn:Hloop.
  apply convergenceLoop_events in Hloop as (evs & Ht & Hev & Hi & _).
  assert (Forall (fun ev => isImmutableInstall ev = false) evs) as Hno.
  { eapply Forall_impl; [exact Hev|]. intros [cmd d|m|p t] Hl; try done.
    destruct Hl as [-> _]. reflexivity. }
  destruct r5 as [[]|e].
  - intros Hcheck. apply run_trace in Hcheck as Htr.
    exists (evs ++ [Ran "jlpm install --immutable" (cwd options)]).
    rewrite Htr, Ht, <- app_assoc. split_and!; [done| |].
    + intros pre ev post Heq Him.
      eapply (last_is_unique _ evs pre post _ ev Hno); [|by symmetry].
      by rewrite Him.
    + intros _. exists evs. split; [done|lia].
  - intros [= <- <-]. exists evs. split_and!; [done| |done].
    intros pre ev post -> Him.
    apply Forall_app in Hno as [_ [Hf _]%Forall_cons]. congruence.
Qed.

(** X9.  When the first pass of a run reverts something and the resolver
    then leaves the rewritten lockfile in place, the second pass changes
    nothing: the run installs twice, writes once, and goes on to the
    immutable install.  The codec has to read back the text it wrote. *)
Theorem one_revert_then_stable
    packages options (w w1 w1' w3 : World) pkgs idx st e4 fs4 :
  let lockFile := default "yarn.lock" (lock options) in
  let rewritten := yarnLockHeader +:+ stringifySyml (newPkgs st) in
  loaded lockFile w = Ok pkgs →
  buildIndex pkgs = Ok idx →
  run "jlpm install" (cwd options) w = (Ok tt, w1) →
  diffPass lockFile idx packages pkgs w1 = (Ok st, w1') →
  hasChange st = true →
  run "jlpm install" (cwd options) (written lockFile rewritten w1') = (Ok tt, w3) →
  files w3 !! lockFile = Some rewritten →
  parseSyml rewritten = Some (newPkgs st) →
  exec "jlpm install --immutable" (cwd options) (env w3) (files w3)
    = Some (e4, fs4) →
  ∃ ms1 ms2,
    existsb isDowngrade ms2 = false ∧
    trace w3 = (((trace w ++ [Ran "jlpm install" (cwd options)])
                 ++ (Printed <$> ms1)) ++ [Wrote lockFile rewritten])
               ++ [Ran "jlpm install" (cwd options)] ∧
    upgradeLock packages options w
    = (Ok tt,
       {| files := fs4; env := e4;
          trace := (trace w3 ++ (Printed <$> ms2))
                   ++ [Ran "jlpm install --immutable" (cwd options)] |}).
Proof.
  intros lockFile rewritten Hload Hbuild Hrun1 Hpass Hch Hrun2 Hfile Hparse
    Hcheck.
  assert (loaded lockFile w3 = Ok (newPkgs st)) as Hload3.
  { unfold loaded. rewrite Hfile. simpl. by rewrite Hparse. }
  assert (∃ ms1, w1' = say ms1 w1) as [ms1 Hw1'].
  { rewrite diffPass_run in Hpass.
    destruct (loaded lockFile w1); [|done].
    destruct (decide_all idx packages pkgs _ _) as [r ms1].
    injection Hpass as _ <-. by exists ms1. }
  assert (∃ ms2, existsb isDowngrade ms2 = false ∧
            upgradeSelectedPackages lockFile idx packages pkgs w3
            = (Ok false, say ms2 w3)) as (ms2 & Hms2 & Hpass2).
  { rewrite diffPass_run in Hpass.
    destruct (loaded lockFile w1) as [reloaded|]; [|done].
    destruct (decide_all idx packages pkgs (Obj.keys reloaded) _)
      as [r ms0] eqn:Hall.
    injection Hpass as -> _.
    pose proof (pass_fst _ _ _ _ _ _ _ Hall) as Hfst. simpl in Hfst.
    destruct (pass_stable idx packages pkgs (Obj.keys (newPkgs st))
                {| newPkgs := newPkgs st; hasChange := false |})
      as (ms & Hagain & Hms).
    { intros k Hk. simpl. rewrite (keys_fst _ _ Hfst) in Hk.
      by eapply settled_after_pass. }
    exists ms. split; [done|].
    by rewrite upgradeSelectedPackages_run, diffPass_run, Hload3, Hagain. }
  exists ms1, ms2. split_and!; [done| |].
  - apply run_trace in Hrun1, Hrun2. rewrite Hrun2. simpl.
    rewrite Hw1'. simpl. by rewrite Hrun1.
  - rewrite upgradeLock_unfold. cbv zeta. fold lockFile.
    rewrite Hload, Hbuild, convergenceLoop_unfold, Hrun1.
    rewrite upgradeSelectedPackages_run, Hpass, Hch. fold rewritten.
    rewrite convergenceLoop_unfold, Hrun2, Hpass2.
    unfold run. simpl. by rewrite Hcheck.
Qed.

(** X11.  The canonical name of a resolution is that of its first
    comma-separated part: what follows the first comma is not looked at. *)
Theorem name_comes_from_first_part a b :
  lacks "," a = true →
  extractNameFromDescriptor (a +:+ "," +:+ b) = extractNameFromDescriptor a.
Proof.
  intros Ha. unfold extractNameFromDescriptor.
  assert (∀ cur,
            hd EmptyString (Str.split_go "," cur (a +:+ "," +:+ b))
            = hd EmptyString (Str.split_go "," cur a)) as Hhd.
  { induction a as [|x a IH]; intros cur; simpl; [done|].
    simpl in Ha. apply andb_prop in Ha as [Hx Ha].
    apply negb_true_iff in Hx. rewrite Hx. by apply IH. }
  unfold Str.split. by rewrite Hhd.
Qed.

End LoopProperties.

(** ** The further properties on the samples *)

Section MoreOnSamples.
Import Demo Samples Samples2.

Local Ltac compute_it := vm_compute; reflexivity.

Lemma index_buckets_witness :
  buildIndex original = Ok (indexOf original) ∧
  indexOf original !! "pkg-b"
  = match keysNamed original "pkg-b" with
    | [] => None
    | k :: ks => Some (k :: ks)
    end.
Proof.
  assert (buildIndex original = Ok (indexOf original)) as Hb by compute_it.
  split; [exact Hb|]. exact (index_buckets original (indexOf original) Hb "pkg-b").
Defined.

Lemma index_partition_witness :
  buildIndex twice = Ok (indexOf twice) ∧
  ∀ nm cands, indexOf twice !! nm = Some cands → cands ≠ [] ∧ NoDup cands.
Proof.
  assert (buildIndex twice = Ok (indexOf twice)) as Hb by compute_it.
  split; [exact Hb|].
  exact (proj1 (index_partition twice (indexOf twice) Hb)).
Defined.

Lemma original_must_be_readable_witness :
  let w := world (demo_stringifySyml broken) agrees in
  loaded "yarn.lock" w = Ok broken ∧
  ∃ d, upgradeLock "pkg-a" options w = (Fail (InvalidDescriptor d), w).
Proof.
  intros w.
  assert (loaded "yarn.lock" w = Ok broken) as Hl by compute_it.
  split; [exact Hl|].
  destruct (original_must_be_readable "pkg-a" options w) as (_ & _ & H3).
  apply (H3 broken "pkg-a@npm:^1.0.0" (entry "1.0.0" "@broken")
            (InvalidDescriptor "@broken") Hl); compute_it.
Defined.

Lemma in_pattern_entry_witness :
  let r := diffPass "yarn.lock" (indexOf original) "pkg-a" original afterBump in
  isMatch "pkg-a" "pkg-a" = Some true ∧
  ∃ st, r.1 = Ok st ∧
        Obj.get (newPkgs st) "pkg-a@npm:^1.0.0"
        = Some (entry "1.1.0" "pkg-a@npm:1.1.0").
Proof.
  intros r.
  assert (isMatch "pkg-a" "pkg-a" = Some true) as Hm by compute_it.
  assert (∃ st, r.1 = Ok st) as [st Hst] by (eexists; compute_it).
  split; [exact Hm|]. exists st. split; [exact Hst|].
  apply (in_pattern_entry_is_ignored "yarn.lock" (indexOf original) "pkg-a"
           original afterBump r.2 st bumped "pkg-a@npm:^1.0.0"
           (entry "1.1.0" "pkg-a@npm:1.1.0") "pkg-a" ["pkg-a@npm:^1.0.0"]
           (pair_of r _ Hst)); compute_it.
Defined.


Lemma diff_loop_completes_witness :
  readable "pkg-a" bumped = true ∧
  ∃ st ms,
    diffPass "yarn.lock" (indexOf original) "pkg-a" original afterBump
    = (Ok st, say ms afterBump).
Proof.
  assert (readable "pkg-a" bumped = true) as Hr by compute_it.
  assert (buildIndex original = Ok (indexOf original)) as Hb by compute_it.
  assert (loaded "yarn.lock" afterBump = Ok bumped) as Hl by compute_it.
  split; [exact Hr|].
  destruct (diff_loop_completes "yarn.lock" (indexOf original) "pkg-a" original
              afterBump bumped Hb Hl Hr) as (st & ms & Hpass & _).
  exists st, ms. exact Hpass.
Defined.

Lemma second_pass_witness :
  let r := diffPass "yarn.lock" (indexOf original) "pkg-a" original afterBump in
  let w2 := world (yarnLockHeader +:+ demo_stringifySyml upgraded) agrees in
  r.1 = Ok {| newPkgs := upgraded; hasChange := true |} ∧
  ∃ ms, existsb isDowngrade ms = false ∧
        upgradeSelectedPackages "yarn.lock" (indexOf original) "pkg-a"
          original w2 = (Ok false, say ms w2).
Proof.
  intros r w2.
  assert (r.1 = Ok {| newPkgs := upgraded; hasChange := true |}) as H
    by compute_it.
  assert (buildIndex original = Ok (indexOf original)) as Hb by compute_it.
  assert (loaded "yarn.lock" w2 = Ok upgraded) as Hl by compute_it.
  split; [exact H|].
  exact (second_pass_changes_nothing "yarn.lock" (indexOf original) "pkg-a"
           original afterBump r.2 w2 _ Hb (pair_of r _ H) Hl).
Defined.

Lemma pass_keeps_names_witness :
  let r := diffPass "yarn.lock" (indexOf original) "pkg-a" original afterBump in
  r.1 = Ok {| newPkgs := upgraded; hasChange := true |} ∧
  ∀ k, nameOf upgraded k = nameOf bumped k.
Proof.
  intros r.
  assert (r.1 = Ok {| newPkgs := upgraded; hasChange := true |}) as H
    by compute_it.
  assert (buildIndex original = Ok (indexOf original)) as Hb by compute_it.
  assert (loaded "yarn.lock" afterBump = Ok bumped) as Hl by compute_it.
  split; [exact H|].
  exact (pass_keeps_names "yarn.lock" (indexOf original) "pkg-a" original
           afterBump r.2 _ bumped Hb (pair_of r _ H) Hl).
Defined.

Lemma downgrade_witness :
  let ms := [Ignoring "pkg-a@npm:^1.0.0"; Downgrade "pkg-b" "2.1.0" "2.0.0"] in
  let r := diffPass "yarn.lock" (indexOf original) "pkg-a" original afterBump in
  r.1 = Ok {| newPkgs := upgraded; hasChange := true |} ∧
  trace r.2 = trace afterBump ++ (Printed <$> ms) ∧
  "2.1.0" ≠ "2.0.0" ∧
  ∃ cands od o,
    indexOf original !! "pkg-b" = Some cands ∧ od ∈ cands ∧
    Obj.get original od = Some o ∧ version o = "2.0.0".
Proof.
  intros ms r.
  assert (r.1 = Ok {| newPkgs := upgraded; hasChange := true |}) as H
    by compute_it.
  assert (trace r.2 = trace afterBump ++ (Printed <$> ms)) as Ht by compute_it.
  split; [exact H|]. split; [exact Ht|].
  apply (downgrade_goes_to_an_original_version "yarn.lock" (indexOf original)
           "pkg-a" original afterBump r.2 _ ms "pkg-b"
           "2.1.0" "2.0.0" (pair_of r _ H) Ht).
  right. left.
Defined.

Lemma script_writes_witness :
  let r := upgradeLock "pkg-a" options
             (world (demo_stringifySyml original) bumpsOnce) in
  r.1 = Ok tt ∧
  trace r.2
  = concat (iterationEvents "yarn.lock" None <$>
              [([Ignoring "pkg-a@npm:^1.0.0"; Downgrade "pkg-b" "2.1.0" "2.0.0"],
                Some upgraded);
               ([Ignoring "pkg-a@npm:^1.0.0"], None)])
    ++ [Ran "jlpm install --immutable" None] ∧
  ∃ its,
    trace r.2 = [] ++ concat (iterationEvents "yarn.lock" None <$> its)
                   ++ [Ran "jlpm install --immutable" None] ∧
    length its ≤ 6 ∧ writesBetween its.
Proof.
  intros r.
  assert (r.1 = Ok tt) as H by compute_it.
  split; [exact H|]. split; [compute_it|].
  destruct (script_writes_only_the_lockfile "pkg-a" options
              (world (demo_stringifySyml original) bumpsOnce) r.2 (Ok tt)
              (pair_of r _ H)) as (its & tail & Ht & Hn & Hb & _ & Hlast).
  exists its. rewrite (Hlast eq_refl) in Ht. exact (conj Ht (conj Hn Hb)).
Defined.

Lemma immutable_install_witness :
  let r := upgradeLock "pkg-a" options
             (world (demo_stringifySyml original) bumpsOnce) in
  r.1 = Ok tt ∧
  ∃ evs pre,
    trace r.2 = [] ++ evs ∧
    evs = pre ++ [Ran "jlpm install --immutable" None] ∧
    1 ≤ mutableInstalls pre.
Proof.
  intros r.
  assert (r.1 = Ok tt) as H by compute_it.
  split; [exact H|].
  destruct (immutable_install_ends_the_run "pkg-a" options
              (world (demo_stringifySyml original) bumpsOnce) r.2 (Ok tt)
              (pair_of r _ H)) as (evs & Ht & _ & Hlast).
  destruct (Hlast eq_refl) as (pre & Hpre & Hn).
  exists evs, pre. exact (conj Ht (conj Hpre Hn)).
Defined.

Lemma one_revert_then_stable_witness :
  let w := world (demo_stringifySyml original) bumpsOnce in
  let r := upgradeLock "pkg-a" options w in
  r.1 = Ok tt ∧ mutableInstalls (trace r.2) = 2 ∧ writesIn (trace r.2) = 1 ∧
  ∃ ms1 ms2 w3,
    existsb isDowngrade ms2 = false ∧
    trace w3 = ((([] ++ [Ran "jlpm install" None]) ++ (Printed <$> ms1))
                ++ [Wrote "yarn.lock"
                      (yarnLockHeader +:+ demo_stringifySyml upgraded)])
               ++ [Ran "jlpm install" None] ∧
    trace r.2 = (trace w3 ++ (Printed <$> ms2))
                ++ [Ran "jlpm install --immutable" None].
Proof.
  intros w r.
  set (i1 := run "jlpm install" None w).
  set (p1 := diffPass "yarn.lock" (indexOf original) "pkg-a" original i1.2).
  set (st := {| newPkgs := upgraded; hasChange := true |}).
  set (i2 := run "jlpm install" None
               (written "yarn.lock"
                  (yarnLockHeader +:+ demo_stringifySyml upgraded) p1.2)).
  assert (loaded "yarn.lock" w = Ok original) as Hl by compute_it.
  assert (buildIndex original = Ok (indexOf original)) as Hb by compute_it.
  assert (i1.1 = Ok tt) as H1 by compute_it.
  assert (p1.1 = Ok st) as H2 by compute_it.
  assert (i2.1 = Ok tt) as H3 by compute_it.
  assert (files i2.2 !! "yarn.lock"
          = Some (yarnLockHeader +:+ demo_stringifySyml upgraded)) as H4
    by compute_it.
  assert (parseSyml (yarnLockHeader +:+ demo_stringifySyml upgraded)
          = Some upgraded) as H5 by compute_it.
  assert (exec "jlpm install --immutable" None (env i2.2) (files i2.2)
          = Some (agrees, files i2.2)) as H6 by compute_it.
  destruct (one_revert_then_stable "pkg-a" options w i1.2 p1.2 i2.2 original
              (indexOf original) st agrees (files i2.2)
              Hl Hb (pair_of i1 _ H1) (pair_of p1 _ H2) eq_refl
              (pair_of i2 _ H3) H4 H5 H6) as (ms1 & ms2 & Hq & Ht & Hrun).
  split_and!; [compute_it..|].
  exists ms1, ms2, i2.2. split_and!; [exact Hq|exact Ht|].
  change (trace (upgradeLock "pkg-a" options w).2
          = (trace i2.2 ++ (Printed <$> ms2))
            ++ [Ran "jlpm install --immutable" None]).
  rewrite Hrun. reflexivity.
Defined.

Lemma name_comes_from_first_part_witness :
  lacks "," "@jupyterlab/apputils@npm:4.0.0" = true ∧
  extractNameFromDescriptor ("@jupyterlab/apputils@npm:4.0.0" +:+ "," +:+ " x")
  = extractNameFromDescriptor "@jupyterlab/apputils@npm:4.0.0".
Proof.
  assert (lacks "," "@jupyterlab/apputils@npm:4.0.0" = true) as H by compute_it.
  split; [exact H|].
  exact (name_comes_from_first_part "@jupyterlab/apputils@npm:4.0.0" " x" H).
Defined.

Lemma change_flag_witness :
  let r := diffPass "yarn.lock" (indexOf original) "pkg-a" original afterBump in
  r.1 = Ok {| newPkgs := upgraded; hasChange := true |} ∧
  (true = true ↔
   ∃ k e o, Obj.get bumped k = Some e ∧ Obj.get upgraded k = Some o ∧
            version o ≠ version e).
Proof.
  intros r.
  assert (r.1 = Ok {| newPkgs := upgraded; hasChange := true |}) as H
    by compute_it.
  assert (loaded "yarn.lock" afterBump = Ok bumped) as Hl by compute_it.
  split; [exact H|].
  exact (change_flag_is_exact "yarn.lock" (indexOf original) "pkg-a" original
           afterBump r.2 _ bumped (pair_of r _ H) Hl).
Defined.

Lemma descriptors_after_a_rejected_one_witness :
  let k := "pkg-b@npm:^3.0.0, @" in
  Str.split "," k = [] ++ "pkg-b@npm:^3.0.0" :: [" @"] ∧
  parseDescriptor (Str.trim " @") = None ∧
  allDescriptorsAdmit k (Some (entry "2.0.0" "pkg-b@npm:2.0.0")) = Ok false.
Proof.
  intros k.
  assert (Str.split "," k = [] ++ "pkg-b@npm:^3.0.0" :: [" @"]) as Hs
    by compute_it.
  assert (parseDescriptor (Str.trim " @") = None) as Hp by compute_it.
  split; [exact Hs|]. split; [exact Hp|].
  apply (descriptors_after_a_rejected_one_are_not_parsed k _ [] _ [" @"] Hs);
    [constructor|compute_it].
Defined.

End MoreOnSamples.
